(** * The gate client ([client.py]): a shallow embedding

    The client runs three kinds of threads over a handful of module
    globals: the capture loop of [__main__], the receive loop
    [asyncRecvLoop], and one fire-and-forget [send] thread per frame.
    Each loop iteration is embedded as a function in a small
    state/exception/output monad over the globals; calls into the outside
    world (camera, card reader, socket, clock, display) take their result
    from an environment record, one per iteration.  The interleaving of
    the threads is a labelled step function on a [system], in which an
    iteration of a loop is one step.  Where a property depends on what
    the receive thread does in the middle of an iteration of the capture
    loop, the loop body is taken apart ([racing_front], [racing_body])
    and the receive thread runs between its statements. *)

From Stdlib Require Import ZArith List String Ascii Bool Lia.
Import ListNotations.
Open Scope string_scope.
Open Scope list_scope.
Open Scope Z_scope.
Set Warnings "-register-all".

(** ** Python values *)

(** The values held by the session globals: what [json.loads] returns
    (numbers restricted to integers), what the card reader hands over and
    the one-character strings built from key codes.  A dict occurs
    inside the type of values itself, so it is an association list,
    searched from the front. *)
Inductive pyval : Type :=
| PNone
| PBool (b : bool)
| PInt (z : Z)
| PStr (s : string)
| PList (l : list pyval)
| PDict (d : list (string * pyval)).

(** Images and byte buffers are kept symbolic: a term records which
    library functions produced it ([cv2.flip], [cv2.imencode],
    [base64.b64encode]). *)
Inductive image : Type :=
| Captured (n : nat)
| Flipped (i : image).

Inductive blob : Type :=
| Jpg (i : image)
| B64 (b : blob).

(** The exception classes that the handlers of [client.py] tell apart,
    and the ones raised by the operations it uses. *)
Inductive exn : Type :=
| ZmqAgain
| ZmqError
| RuntimeError
| KeyboardInterrupt
| KeyError
| TypeError
| IndexError
| ValueError
| ZeroDivisionError
| Cv2Error.

Inductive outcome (A : Type) : Type :=
| Ret (a : A)
| Raise (e : exn).
Arguments Ret {A} a.
Arguments Raise {A} e.

Definition is_none (v : pyval) : bool :=
  match v with PNone => true | _ => false end.

(** [bool(v)] *)
Definition truthy (v : pyval) : bool :=
  match v with
  | PNone => false
  | PBool b => b
  | PInt z => negb (z =? 0)
  | PStr s => negb (String.eqb s "")
  | PList l => match l with [] => false | _ => true end
  | PDict d => match d with [] => false | _ => true end
  end.

(** [iter(v)] succeeds *)
Definition iterable (v : pyval) : bool :=
  match v with
  | PStr _ | PList _ | PDict _ => true
  | PNone | PBool _ | PInt _ => false
  end.

Fixpoint dict_get (k : string) (d : list (string * pyval)) : option pyval :=
  match d with
  | [] => None
  | (k', v) :: d' => if String.eqb k k' then Some v else dict_get k d'
  end.

Definition dict_keys {V : Type} (d : list (string * V)) : list string :=
  map fst d.

(** Sequence indexing with Python's negative indices. *)
Definition seq_index {A : Type} (l : list A) (i : Z) : option A :=
  let n := Z.of_nat (List.length l) in
  let j := if i <? 0 then i + n else i in
  if (0 <=? j) && (j <? n) then nth_error l (Z.to_nat j) else None.

Definition chars (s : string) : list ascii := list_ascii_of_string s.

Definition as_index (k : pyval) : option Z :=
  match k with
  | PInt i => Some i
  | PBool b => Some (if b then 1 else 0)
  | _ => None
  end.

(** [c[k]] *)
Definition py_getitem (c k : pyval) : outcome pyval :=
  match c with
  | PDict d =>
      match k with
      | PStr s => match dict_get s d with
                  | Some v => Ret v
                  | None => Raise KeyError
                  end
      | PList _ | PDict _ => Raise TypeError
      | PNone | PBool _ | PInt _ => Raise KeyError
      end
  | PList l =>
      match as_index k with
      | Some i => match seq_index l i with
                  | Some v => Ret v
                  | None => Raise IndexError
                  end
      | None => Raise TypeError
      end
  | PStr s =>
      match as_index k with
      | Some i => match seq_index (chars s) i with
                  | Some a => Ret (PStr (String a EmptyString))
                  | None => Raise IndexError
                  end
      | None => Raise TypeError
      end
  | PNone | PBool _ | PInt _ => Raise TypeError
  end.

(** [chr(n)] for [0 <= n < 256] *)
Definition chr (n : Z) : string :=
  String (ascii_of_N (Z.to_N n)) EmptyString.

(** [ord('q')] *)
Definition ord_q : Z := 113.

(** [cv2.flip(img, 1)]: an empty frame is rejected by OpenCV. *)
Definition cv2_flip (img : option image) : outcome image :=
  match img with
  | Some i => Ret (Flipped i)
  | None => Raise Cv2Error
  end.

(** ** Command line *)

Record Args : Type := {
  consecutive : Z;
  k : Z;
  threshold : Z;
  region : option (Z * Z * Z * Z);
  display : bool;
  fullscreen : bool;
  card_cooldown : Z;
  virtual : bool;
  cam : Z;
  server_address : string
}.

(** One command-line option that [parse_args] has recognised. *)
Inductive cli_option : Type :=
| OptConsecutive (n : Z)
| OptK (n : Z)
| OptThreshold (n : Z)
| OptRegion (x y w h : Z)
| OptDisplay
| OptFullscreen
| OptCardCooldown (n : Z)
| OptVirtual
| OptCam (n : Z)
| OptServerAddress (s : string).

(** The [default=] of every [add_argument]; [store_true] flags start
    false and an option without default starts as [None]. *)
Definition default_args : Args := {|
  consecutive := 30;
  k := 100;
  threshold := 50;
  region := None;
  display := false;
  fullscreen := false;
  card_cooldown := 3;
  virtual := false;
  cam := 0;
  server_address := "tcp://localhost:5555"
|}.

Definition set_option (a : Args) (o : cli_option) : Args :=
  match o with
  | OptConsecutive n =>
      {| consecutive := n; k := k a; threshold := threshold a; region := region a;
         display := display a; fullscreen := fullscreen a;
         card_cooldown := card_cooldown a; virtual := virtual a; cam := cam a;
         server_address := server_address a |}
  | OptK n =>
      {| consecutive := consecutive a; k := n; threshold := threshold a; region := region a;
         display := display a; fullscreen := fullscreen a;
         card_cooldown := card_cooldown a; virtual := virtual a; cam := cam a;
         server_address := server_address a |}
  | OptThreshold n =>
      {| consecutive := consecutive a; k := k a; threshold := n; region := region a;
         display := display a; fullscreen := fullscreen a;
         card_cooldown := card_cooldown a; virtual := virtual a; cam := cam a;
         server_address := server_address a |}
  | OptRegion x y w h =>
      {| consecutive := consecutive a; k := k a; threshold := threshold a;
         region := Some (x, y, w, h);
         display := display a; fullscreen := fullscreen a;
         card_cooldown := card_cooldown a; virtual := virtual a; cam := cam a;
         server_address := server_address a |}
  | OptDisplay =>
      {| consecutive := consecutive a; k := k a; threshold := threshold a; region := region a;
         display := true; fullscreen := fullscreen a;
         card_cooldown := card_cooldown a; virtual := virtual a; cam := cam a;
         server_address := server_address a |}
  | OptFullscreen =>
      {| consecutive := consecutive a; k := k a; threshold := threshold a; region := region a;
         display := display a; fullscreen := true;
         card_cooldown := card_cooldown a; virtual := virtual a; cam := cam a;
         server_address := server_address a |}
  | OptCardCooldown n =>
      {| consecutive := consecutive a; k := k a; threshold := threshold a; region := region a;
         display := display a; fullscreen := fullscreen a;
         card_cooldown := n; virtual := virtual a; cam := cam a;
         server_address := server_address a |}
  | OptVirtual =>
      {| consecutive := consecutive a; k := k a; threshold := threshold a; region := region a;
         display := display a; fullscreen := fullscreen a;
         card_cooldown := card_cooldown a; virtual := true; cam := cam a;
         server_address := server_address a |}
  | OptCam n =>
      {| consecutive := consecutive a; k := k a; threshold := threshold a; region := region a;
         display := display a; fullscreen := fullscreen a;
         card_cooldown := card_cooldown a; virtual := virtual a; cam := n;
         server_address := server_address a |}
  | OptServerAddress s =>
      {| consecutive := consecutive a; k := k a; threshold := threshold a; region := region a;
         display := display a; fullscreen := fullscreen a;
         card_cooldown := card_cooldown a; virtual := virtual a; cam := cam a;
         server_address := s |}
  end.

(** [parser.parse_args()] on an already tokenised command line: every
    option starts at its default and later occurrences win. *)
Definition parse_args (argv : list cli_option) : Args :=
  fold_left set_option argv default_args.

(** ** Module globals *)

Record globals : Type := {
  IS_CLIENT_RUNNING : bool;
  start_time : Z;
  it : Z;
  idle_begin : Z;
  id_counter : pyval;
  BOUNDING_BOXES : pyval;
  MAIN_BBOX : pyval;
  CARD2NAME : pyval;
  OPEN_GATE : pyval;
  AUTHORIZED_ID : pyval;
  RECOGNIZED_ID : pyval;
  consecutive_occurrence : pyval
}.

Definition set_IS_CLIENT_RUNNING (v : bool) (g : globals) : globals :=
  let '(Build_globals _ st i ib ic bb mb cn og au ri co) := g in
  Build_globals v st i ib ic bb mb cn og au ri co.
Definition set_it (v : Z) (g : globals) : globals :=
  let '(Build_globals r st _ ib ic bb mb cn og au ri co) := g in
  Build_globals r st v ib ic bb mb cn og au ri co.
Definition set_idle_begin (v : Z) (g : globals) : globals :=
  let '(Build_globals r st i _ ic bb mb cn og au ri co) := g in
  Build_globals r st i v ic bb mb cn og au ri co.
Definition set_id_counter (v : pyval) (g : globals) : globals :=
  let '(Build_globals r st i ib _ bb mb cn og au ri co) := g in
  Build_globals r st i ib v bb mb cn og au ri co.
Definition set_BOUNDING_BOXES (v : pyval) (g : globals) : globals :=
  let '(Build_globals r st i ib ic _ mb cn og au ri co) := g in
  Build_globals r st i ib ic v mb cn og au ri co.
Definition set_MAIN_BBOX (v : pyval) (g : globals) : globals :=
  let '(Build_globals r st i ib ic bb _ cn og au ri co) := g in
  Build_globals r st i ib ic bb v cn og au ri co.
Definition set_CARD2NAME (v : pyval) (g : globals) : globals :=
  let '(Build_globals r st i ib ic bb mb _ og au ri co) := g in
  Build_globals r st i ib ic bb mb v og au ri co.
Definition set_OPEN_GATE (v : pyval) (g : globals) : globals :=
  let '(Build_globals r st i ib ic bb mb cn _ au ri co) := g in
  Build_globals r st i ib ic bb mb cn v au ri co.
Definition set_AUTHORIZED_ID (v : pyval) (g : globals) : globals :=
  let '(Build_globals r st i ib ic bb mb cn og _ ri co) := g in
  Build_globals r st i ib ic bb mb cn og v ri co.
Definition set_RECOGNIZED_ID (v : pyval) (g : globals) : globals :=
  let '(Build_globals r st i ib ic bb mb cn og au _ co) := g in
  Build_globals r st i ib ic bb mb cn og au v co.
Definition set_consecutive_occurrence (v : pyval) (g : globals) : globals :=
  let '(Build_globals r st i ib ic bb mb cn og au ri _) := g in
  Build_globals r st i ib ic bb mb cn og au ri v.

(** The eight variables that [recv] updates, in the order of its
    assignments, and the message fields they are read from. *)
Definition session_vars (g : globals) : list pyval :=
  [id_counter g; BOUNDING_BOXES g; MAIN_BBOX g; CARD2NAME g;
   OPEN_GATE g; AUTHORIZED_ID g; RECOGNIZED_ID g; consecutive_occurrence g].

Definition field_names : list string :=
  ["id_counter"; "BOUNDING_BOXES"; "MAIN_BBOX"; "CARD2NAME";
   "OPEN_GATE"; "AUTHORIZED_ID"; "RECOGNIZED_ID"; "consecutive_occurrence"].

(** ** Effects *)

(** What a thread prints. *)
Inductive line : Type :=
| PrBeginCapture
| PrOpen (name id : pyval) (t : Z)
| PrSendError (e : exn)
| PrSent (frame : image) (id : pyval)
| PrRecvError (e : exn)
| PrTimeout (current max : Z)
| PrRecvLoopError (e : exn)
| PrInterrupted
| PrExitingRecvLoop
| PrTraceback (e : exn).

(** The value of one key of the pickled [client_data] dict. *)
Inductive field : Type :=
| FBytes (b : blob)
| FVal (v : pyval).

(** What a thread does to the outside world, in the order it does it. *)
Inductive event : Type :=
| EvRead (ret : bool)
| EvCardPoll
| EvDispatch (frame : image) (claimed : pyval)
| EvPrint (l : line)
| EvActuate (id : pyval)
| EvShow (frame : image)
| EvSocketSend (message : list (string * field))
| EvDestroyWindows
| EvRelease.

(** Computations over the globals that may raise and that emit events.
    The globals and the events survive a raise, as assignments and
    prints made before a Python exception do. *)
Definition M (A : Type) : Type := globals -> outcome A * globals * list event.

Definition ret {A : Type} (a : A) : M A := fun g => (Ret a, g, []).

Definition bind {A B : Type} (m : M A) (f : A -> M B) : M B :=
  fun g =>
    match m g with
    | (Ret a, g1, ev1) =>
        match f a g1 with
        | (r, g2, ev2) => (r, g2, ev1 ++ ev2)
        end
    | (Raise e, g1, ev1) => (Raise e, g1, ev1)
    end.

Definition raise {A : Type} (e : exn) : M A := fun g => (Raise e, g, []).

(** The result of a call that cannot touch the globals. *)
Definition lift {A : Type} (o : outcome A) : M A := fun g => (o, g, []).

Definition emit (e : event) : M unit := fun g => (Ret tt, g, [e]).

Definition get {A : Type} (proj : globals -> A) : M A := fun g => (Ret (proj g), g, []).

Definition assign (upd : globals -> globals) : M unit := fun g => (Ret tt, upd g, []).

Definition when (b : bool) (m : M unit) : M unit := if b then m else ret tt.

(** [try: m  except RuntimeError as e: h e] *)
Definition except_RuntimeError {A : Type} (m : M A) (h : exn -> M A) : M A :=
  fun g =>
    match m g with
    | (Raise RuntimeError, g1, ev1) =>
        match h RuntimeError g1 with
        | (r, g2, ev2) => (r, g2, ev1 ++ ev2)
        end
    | r => r
    end.

Declare Scope py_scope.
Delimit Scope py_scope with py.
Notation "x <- c1 ;; c2" := (bind c1 (fun x => c2))
  (at level 100, c1 at next level, right associativity) : py_scope.
Notation "c1 ;; c2" := (bind c1 (fun _ => c2))
  (at level 100, right associativity) : py_scope.
Open Scope py_scope.

(** ** The capture loop *)

(** What the outside world answers during one iteration of the capture
    loop, one field per call in the order of the source.  Clock readings
    are in milliseconds.
    - [cap_read]: [cap.read()], the flag and the frame;
    - [readCardID]: [pirate.readCardID(max_age=1000)];
    - [waitKey_auth]: [cv2.waitKey(10)] of the key-press authorization;
    - [time_open]: [time()] in the print of the gate-open branch;
    - [emulateCardID]: [pirate.emulateCardID(RECOGNIZED_ID)];
    - [time_idle_begin], [time_idle], [time_fps]: the three [time()] of
      the idle branch (the second only feeds the unused [idle_time]);
    - [show_idle]: [drawBanner], [imshow] and [cv2.waitKey(10)] of the
      idle branch, [show_boxes]: [drawBBox], [drawBanner], [imshow] and
      [cv2.waitKey(1)] of the other one; the key code, unless one of the
      calls raises. *)
Record tick_env : Type := {
  cap_read : outcome (bool * option image);
  readCardID : outcome (list pyval);
  waitKey_auth : outcome Z;
  time_open : Z;
  emulateCardID : outcome unit;
  time_idle_begin : Z;
  time_idle : Z;
  time_fps : Z;
  show_idle : outcome Z;
  show_boxes : outcome Z
}.

Inductive control : Type := Continue | Break.

(** STEP 2 of the loop body: the card or the pressed key authorizes. *)
Definition authorize (args : Args) (env : tick_env) (CardData : list pyval) : M unit :=
  auth <- get AUTHORIZED_ID ;;
  if is_none auth then
    if virtual args then
      pressedKeyCode <- lift (waitKey_auth env) ;;
      when (negb (pressedKeyCode =? -1))
           (assign (set_AUTHORIZED_ID (PStr (chr (Z.land pressedKeyCode 255)))))
    else
      if (Z.of_nat (List.length CardData) =? 4)
      then assign (set_AUTHORIZED_ID (nth 0 CardData PNone))
      else ret tt
  else ret tt.

(** The [if OPEN_GATE:] block. *)
Definition open_gate (args : Args) (env : tick_env) : M unit :=
  og <- get OPEN_GATE ;;
  if truthy og then
    c2n <- get CARD2NAME ;;
    rid <- get RECOGNIZED_ID ;;
    name <- lift (py_getitem c2n rid) ;;
    emit (EvPrint (PrOpen name rid (time_open env))) ;;
    if negb (virtual args) then
      emit (EvActuate rid) ;;
      lift (emulateCardID env)
    else ret tt
  else ret tt.

(** STEP 1 and STEP 2 of the loop body and the dispatch of the frame:
    read and flip the image, poll the card reader, authorize, start the
    [send] thread. *)
Definition capture_and_dispatch (args : Args) (env : tick_env) : M image :=
  r <- lift (cap_read env) ;;
  emit (EvRead (fst r)) ;;
  bgrImg <- lift (cv2_flip (snd r)) ;;
  if negb (fst r) then raise RuntimeError else
  CardData <- (if negb (virtual args)
               then (emit EvCardPoll ;; lift (readCardID env))
               else ret []) ;;
  authorize args env CardData ;;
  claimed <- get AUTHORIZED_ID ;;
  emit (EvDispatch bgrImg claimed) ;;
  ret bgrImg.

(** The rest of the loop body: idle bookkeeping and display. *)
Definition idle_or_show (args : Args) (env : tick_env) (bgrImg : image) : M control :=
  mb <- get MAIN_BBOX ;;
  if is_none mb then
    ib <- get idle_begin ;;
    when (ib <? 0) (assign (set_idle_begin (time_idle_begin env))) ;;
    st <- get start_time ;;
    when (time_fps env - st =? 0) (raise ZeroDivisionError) ;;
    if display args then
      emit (EvShow bgrImg) ;;
      key <- lift (show_idle env) ;;
      if Z.land key 255 =? ord_q then ret Break else ret Continue
    else ret Continue
  else
    assign (set_idle_begin (-1)) ;;
    if display args then
      bb <- get BOUNDING_BOXES ;;
      when (negb (iterable bb)) (raise TypeError) ;;
      emit (EvShow bgrImg) ;;
      key <- lift (show_boxes env) ;;
      if Z.land key 255 =? ord_q then ret Break else ret Continue
    else ret Continue.

(** The body of the [try:] of the capture loop. *)
Definition tick_body (args : Args) (env : tick_env) : M control :=
  bgrImg <- capture_and_dispatch args env ;;
  open_gate args env ;;
  idle_or_show args env bgrImg.

Inductive thread_status : Type :=
| Running
| Exited
| Died (e : exn).

(** One iteration of [while IS_CLIENT_RUNNING:] followed by the loop
    test: [it += 1], the [try:] body, the [except KeyboardInterrupt:]
    handler.  Any other exception leaves the loop and kills the thread. *)
Definition main_iter (args : Args) (env : tick_env) (g : globals)
  : thread_status * globals * list event :=
  match tick_body args env (set_it (it g + 1) g) with
  | (Ret Continue, g1, evs) =>
      (if IS_CLIENT_RUNNING g1 then Running else Exited, g1, evs)
  | (Ret Break, g1, evs) => (Exited, g1, evs)
  | (Raise KeyboardInterrupt, g1, evs) =>
      (Exited, set_IS_CLIENT_RUNNING false g1,
       evs ++ [EvDestroyWindows; EvRelease; EvPrint PrInterrupted])
  | (Raise e, g1, evs) => (Died e, g1, evs ++ [EvPrint (PrTraceback e)])
  end.

(** ** The receive path *)

(** What [client_socket.recv_string()] does in one call: it raises
    ([zmq.Again] after [RCVTIMEO] milliseconds without a message), or it
    returns a text, given here by what [json.loads] makes of it ([None]
    when the text is not JSON). *)
Inductive recv_input : Type :=
| SockRaise (e : exn)
| SockText (decoded : option pyval).

Definition json_loads (decoded : option pyval) : outcome pyval :=
  match decoded with
  | Some v => Ret v
  | None => Raise ValueError
  end.

Definition recv_string_loads (inp : recv_input) : outcome pyval :=
  match inp with
  | SockRaise e => Raise e
  | SockText d => json_loads d
  end.

(** The [try:] block of [recv]. *)
Definition recv_try (inp : recv_input) : M unit :=
  statistics <- lift (recv_string_loads inp) ;;
  v <- lift (py_getitem statistics (PStr "id_counter")) ;;
  assign (set_id_counter v) ;;
  v <- lift (py_getitem statistics (PStr "BOUNDING_BOXES")) ;;
  assign (set_BOUNDING_BOXES v) ;;
  v <- lift (py_getitem statistics (PStr "MAIN_BBOX")) ;;
  assign (set_MAIN_BBOX v) ;;
  v <- lift (py_getitem statistics (PStr "CARD2NAME")) ;;
  assign (set_CARD2NAME v) ;;
  v <- lift (py_getitem statistics (PStr "OPEN_GATE")) ;;
  assign (set_OPEN_GATE v) ;;
  v <- lift (py_getitem statistics (PStr "AUTHORIZED_ID")) ;;
  assign (set_AUTHORIZED_ID v) ;;
  v <- lift (py_getitem statistics (PStr "RECOGNIZED_ID")) ;;
  assign (set_RECOGNIZED_ID v) ;;
  v <- lift (py_getitem statistics (PStr "consecutive_occurrence")) ;;
  assign (set_consecutive_occurrence v).

Definition recv (inp : recv_input) : M unit :=
  except_RuntimeError (recv_try inp) (fun e => emit (EvPrint (PrRecvError e))).

Definition max_timeout : Z := 100.

(** The test of [while IS_CLIENT_RUNNING and current_timeout < max_timeout:]
    and, when it fails, the print after the loop. *)
Definition recv_loop_test (current_timeout : Z) (g : globals)
  : thread_status * list event :=
  if IS_CLIENT_RUNNING g && (current_timeout <? max_timeout)
  then (Running, [])
  else (Exited, [EvPrint PrExitingRecvLoop]).

(** One iteration of the loop of [asyncRecvLoop] followed by the loop
    test; [current_timeout] is the local counter of the function. *)
Definition recv_iter (inp : recv_input) (current_timeout : Z) (g : globals)
  : thread_status * Z * globals * list event :=
  match recv inp g with
  | (Ret _, g1, evs) =>
      let t := recv_loop_test current_timeout g1 in
      (fst t, current_timeout, g1, evs ++ snd t)
  | (Raise ZmqAgain, g1, evs) =>
      let c := current_timeout + 1 in
      let t := recv_loop_test c g1 in
      (fst t, c, g1, evs ++ [EvPrint (PrTimeout c max_timeout)] ++ snd t)
  | (Raise RuntimeError, g1, evs) =>
      let t := recv_loop_test current_timeout g1 in
      (fst t, current_timeout, g1,
       evs ++ [EvPrint (PrRecvLoopError RuntimeError)] ++ snd t)
  | (Raise KeyboardInterrupt, g1, evs) =>
      (Exited, current_timeout, g1,
       evs ++ [EvPrint PrInterrupted; EvPrint PrExitingRecvLoop])
  | (Raise e, g1, evs) =>
      (Died e, current_timeout, g1, evs ++ [EvPrint (PrTraceback e)])
  end.

(** ** The send path *)

(** The dict that [send] pickles: the base64 text of the JPEG buffer of
    the frame, and the identity.  The pickled bytes are identified with
    the dict they carry. *)
Definition client_data (bgrImg : image) (AUTHORIZED_ID : pyval)
  : list (string * field) :=
  [("bgrImg", FBytes (B64 (Jpg bgrImg)));
   ("AUTHORIZED_ID", FVal AUTHORIZED_ID)].

(** [send(bgrImg, AUTHORIZED_ID)], given what [client_socket.send] does.
    [EvSocketSend] records a message that the socket accepted. *)
Definition send (socket_send : outcome unit) (bgrImg : image) (AUTHORIZED_ID : pyval)
  : outcome unit * list event :=
  let message := client_data bgrImg AUTHORIZED_ID in
  match socket_send with
  | Ret _ =>
      (Ret tt, [EvSocketSend message; EvPrint (PrSent bgrImg AUTHORIZED_ID)])
  | Raise RuntimeError =>
      (Ret tt, [EvPrint (PrSendError RuntimeError);
                EvPrint (PrSent bgrImg AUTHORIZED_ID)])
  | Raise e => (Raise e, [])
  end.

(** A [threading.Thread] whose target is [send]: an exception that
    escapes the target ends the thread and is printed by the thread's
    exception hook. *)
Definition send_thread (socket_send : outcome unit) (bgrImg : image) (AUTHORIZED_ID : pyval)
  : list event :=
  match send socket_send bgrImg AUTHORIZED_ID with
  | (Ret _, evs) => evs
  | (Raise e, evs) => evs ++ [EvPrint (PrTraceback e)]
  end.

(** ** Start-up *)

Record socket : Type := {
  connected_to : string;
  RCVTIMEO : Z
}.

Record init_env : Type := {
  first_read : outcome (bool * option image);
  time_start : Z;
  pirate_init : outcome unit
}.

(** The assignments at the end of [initializeClient], with
    [IS_CLIENT_RUNNING], [start_time], [it] and [idle_begin]. *)
Definition initial_globals (now : Z) : globals := {|
  IS_CLIENT_RUNNING := true;
  start_time := now;
  it := 0;
  idle_begin := -1;
  id_counter := PNone;
  BOUNDING_BOXES := PNone;
  MAIN_BBOX := PNone;
  CARD2NAME := PDict [];
  OPEN_GATE := PBool false;
  AUTHORIZED_ID := PNone;
  RECOGNIZED_ID := PNone;
  consecutive_occurrence := PInt 0
|}.

Definition initializeClient (args : Args) (env : init_env)
  : outcome (globals * socket) :=
  match first_read env with
  | Raise e => Raise e
  | Ret r =>
      if negb (fst r) then Raise RuntimeError else
      match (if negb (virtual args) then pirate_init env else Ret tt) with
      | Raise e => Raise e
      | Ret _ =>
          Ret (initial_globals (time_start env),
               {| connected_to := server_address args;
                  RCVTIMEO := 1000 |})
      end
  end.

(** ** The threads together *)

Record system : Type := {
  glob : globals;
  main_thread : thread_status;
  recv_thread : thread_status;
  current_timeout : Z;
  in_flight : list (image * pyval);
  trace : list event
}.

(** [__main__] up to the first test of the capture loop: the globals are
    initialised, the receive thread is started and reaches its loop. *)
Definition start (args : Args) (env : init_env) : outcome system :=
  match initializeClient args env with
  | Raise e => Raise e
  | Ret gs =>
      let g := fst gs in
      let t := recv_loop_test 0 g in
      Ret {| glob := g;
             main_thread := if IS_CLIENT_RUNNING g then Running else Exited;
             recv_thread := fst t;
             current_timeout := 0;
             in_flight := [];
             trace := snd t ++ [EvPrint PrBeginCapture] |}
  end.

(** The threads started by the dispatches of one iteration. *)
Definition dispatched (evs : list event) : list (image * pyval) :=
  flat_map (fun e => match e with
                     | EvDispatch f c => [(f, c)]
                     | _ => []
                     end) evs.

Fixpoint remove_nth {A : Type} (n : nat) (l : list A) : list A :=
  match l, n with
  | [], _ => []
  | _ :: l', O => l'
  | x :: l', S n' => x :: remove_nth n' l'
  end.

(** Which thread runs next, and what the outside world answers it:
    an iteration of the capture loop, an iteration of the receive loop,
    or the [n]-th pending [send] thread running to its end. *)
Inductive label : Type :=
| MainTick (env : tick_env)
| RecvTick (inp : recv_input)
| SendTick (n : nat) (socket_send : outcome unit).

Definition step (args : Args) (l : label) (s : system) : system :=
  match l with
  | MainTick env =>
      match main_thread s with
      | Running =>
          let r := main_iter args env (glob s) in
          {| glob := snd (fst r);
             main_thread := fst (fst r);
             recv_thread := recv_thread s;
             current_timeout := current_timeout s;
             in_flight := in_flight s ++ dispatched (snd r);
             trace := trace s ++ snd r |}
      | _ => s
      end
  | RecvTick inp =>
      match recv_thread s with
      | Running =>
          let r := recv_iter inp (current_timeout s) (glob s) in
          {| glob := snd (fst r);
             main_thread := main_thread s;
             recv_thread := fst (fst (fst r));
             current_timeout := snd (fst (fst r));
             in_flight := in_flight s;
             trace := trace s ++ snd r |}
      | _ => s
      end
  | SendTick n socket_send =>
      match nth_error (in_flight s) n with
      | Some job =>
          {| glob := glob s;
             main_thread := main_thread s;
             recv_thread := recv_thread s;
             current_timeout := current_timeout s;
             in_flight := remove_nth n (in_flight s);
             trace := trace s ++ send_thread socket_send (fst job) (snd job) |}
      | None => s
      end
  end.

Definition exec (args : Args) (ls : list label) (s : system) : system :=
  fold_left (fun s l => step args l s) ls s.

(** ** Observations on a computation *)

Definition result {A : Type} (r : outcome A * globals * list event) : outcome A :=
  fst (fst r).
Definition final {A : Type} (r : outcome A * globals * list event) : globals :=
  snd (fst r).
Definition emitted {A : Type} (r : outcome A * globals * list event) : list event :=
  snd r.

(** A computation keeps a relation between the globals before and
    after it, however it ends. *)
Definition keeps (R : globals -> globals -> Prop) {A : Type} (m : M A) : Prop :=
  forall g, R g (final (m g)).

(** Every event of a computation satisfies a predicate. *)
Definition emits_only (Q : event -> Prop) {A : Type} (m : M A) : Prop :=
  forall g, Forall Q (emitted (m g)).

(** The globals that only the capture loop writes. *)
Definition loop_vars (g : globals) : bool * Z * Z * Z :=
  (IS_CLIENT_RUNNING g, start_time g, it g, idle_begin g).

(** *** What the capture loop leaves alone *)

Definition same_running (g g' : globals) : Prop :=
  IS_CLIENT_RUNNING g' = IS_CLIENT_RUNNING g.

(** An authorized identity, once there, stays. *)
Definition auth_sticks (g g' : globals) : Prop :=
  AUTHORIZED_ID g <> PNone -> AUTHORIZED_ID g' = AUTHORIZED_ID g.

(** The events of a trace that show a frame being captured or
    dispatched. *)
Definition frame_event (e : event) : bool :=
  match e with
  | EvRead _ | EvDispatch _ _ => true
  | _ => false
  end.

Definition frame_events (evs : list event) : list event :=
  filter frame_event evs.

Definition is_actuation (e : event) : bool :=
  match e with
  | EvActuate _ => true
  | _ => false
  end.

Definition actuations (evs : list event) : list event :=
  filter is_actuation evs.

Definition is_socket_send (e : event) : bool :=
  match e with
  | EvSocketSend _ => true
  | _ => false
  end.

Definition not_actuation (e : event) : Prop := is_actuation e = false.

(** An event that neither captures nor dispatches a frame. *)
Definition is_print (e : event) : Prop := frame_event e = false.

(** The receive loop runs only while its counter is below the bound. *)
Definition counter_in_bound (s : system) : Prop :=
  recv_thread s = Running -> current_timeout s < max_timeout.

(** The camera did not deliver a frame. *)
Definition capture_failed (env : tick_env) : bool :=
  match cap_read env with
  | Ret (true, Some _) => false
  | _ => true
  end.

(** The receive call timed out. *)
Definition is_timeout (inp : recv_input) : bool :=
  match inp with
  | SockRaise ZmqAgain => true
  | _ => false
  end.

(** The receive timeouts that the receive loop meets along a run. *)
Fixpoint timeouts_seen (args : Args) (ls : list label) (s : system) : Z :=
  match ls with
  | [] => 0
  | l :: ls' =>
      (match l, recv_thread s with
       | RecvTick inp, Running => if is_timeout inp then 1 else 0
       | _, _ => 0
       end) + timeouts_seen args ls' (step args l s)
  end.

(** How many of the eight fields [recv] takes from a decoded message
    before a lookup raises, and the values it finds. *)
Fixpoint fields_applied (statistics : pyval) (names : list string) : nat :=
  match names with
  | [] => O
  | f :: names' =>
      match py_getitem statistics (PStr f) with
      | Ret _ => S (fields_applied statistics names')
      | Raise _ => O
      end
  end.

Definition field_value (statistics : pyval) (f : string) : pyval :=
  match py_getitem statistics (PStr f) with
  | Ret v => v
  | Raise _ => PNone
  end.

(** ** The wire format of the server *)

Definition rect : Type := (Z * Z * Z * Z)%type.

(** Modelled from the spec: the server is not part of the sources at
    hand, only the client that reads its messages.  The record follows
    the server-to-edge shape of the specification, [{candidateTally,
    boundingBoxes, primaryBoundingBox, identityNames, gateOpen,
    recognizedIdentity, authorizedIdentity, consecutiveCount}]. *)
Record server_message : Type := {
  candidateTally : list (string * Z);
  boundingBoxes : list rect;
  primaryBoundingBox : option rect;
  identityNames : list (string * string);
  gateOpen : bool;
  recognizedIdentity : option string;
  authorizedIdentity : option string;
  consecutiveCount : Z
}.

Definition py_rect (r : rect) : pyval :=
  let '(x, y, w, h) := r in PList [PInt x; PInt y; PInt w; PInt h].

Definition py_optional {A : Type} (f : A -> pyval) (o : option A) : pyval :=
  match o with
  | Some a => f a
  | None => PNone
  end.

(** Modelled from the spec: the JSON object that carries a
    [server_message], under the keys that [recv] reads. *)
Definition encode_statistics (m : server_message) : pyval :=
  PDict
    [("id_counter",
      PList (map (fun p => PList [PStr (fst p); PInt (snd p)]) (candidateTally m)));
     ("BOUNDING_BOXES", PList (map py_rect (boundingBoxes m)));
     ("MAIN_BBOX", py_optional py_rect (primaryBoundingBox m));
     ("CARD2NAME", PDict (map (fun p => (fst p, PStr (snd p))) (identityNames m)));
     ("OPEN_GATE", PBool (gateOpen m));
     ("AUTHORIZED_ID", py_optional PStr (authorizedIdentity m));
     ("RECOGNIZED_ID", py_optional PStr (recognizedIdentity m));
     ("consecutive_occurrence", PInt (consecutiveCount m))].

(** ** Concrete runs *)

Definition ok_init : init_env := {|
  first_read := Ret (true, Some (Captured 0));
  time_start := 0;
  pirate_init := Ret tt
|}.

(** An iteration of the capture loop in which the camera delivers frame
    [n] at time [now], no card is present, no key is pressed and every
    call succeeds. *)
Definition quiet_tick (n : nat) (now : Z) : tick_env := {|
  cap_read := Ret (true, Some (Captured n));
  readCardID := Ret [];
  waitKey_auth := Ret (-1);
  time_open := now;
  emulateCardID := Ret tt;
  time_idle_begin := now;
  time_idle := now;
  time_fps := now;
  show_idle := Ret (-1);
  show_boxes := Ret (-1)
|}.


(** The same iteration, except that a card with four fields is read. *)
Definition card_tick (n : nat) (now : Z) (card : pyval) : tick_env := {|
  cap_read := Ret (true, Some (Captured n));
  readCardID := Ret [card; PInt now; PInt 0; PInt 0];
  waitKey_auth := Ret (-1);
  time_open := now;
  emulateCardID := Ret tt;
  time_idle_begin := now;
  time_idle := now;
  time_fps := now;
  show_idle := Ret (-1);
  show_boxes := Ret (-1)
|}.

(** The system that [start] reaches on [ok_init]. *)
Definition started : system := {|
  glob := initial_globals 0;
  main_thread := Running;
  recv_thread := Running;
  current_timeout := 0;
  in_flight := [];
  trace := [EvPrint PrBeginCapture]
|}.

Definition virtual_args : Args := parse_args [OptVirtual].

Definition alice_message (open : bool) (authorized : option string) : server_message := {|
  candidateTally := [("42", 30)];
  boundingBoxes := [(10, 20, 96, 96)];
  primaryBoundingBox := Some (10, 20, 96, 96);
  identityNames := [("42", "alice")];
  gateOpen := open;
  recognizedIdentity := Some "42";
  authorizedIdentity := authorized;
  consecutiveCount := 30
|}.

(** A message that stops after its fourth field. *)
Definition truncated_message : pyval :=
  PDict
    [("id_counter", PList [PList [PStr "42"; PInt 30]]);
     ("BOUNDING_BOXES", PList [py_rect (10, 20, 96, 96)]);
     ("MAIN_BBOX", py_rect (10, 20, 96, 96));
     ("CARD2NAME", PDict [("42", PStr "alice")])].

Definition timeout_tick : label := RecvTick (SockRaise ZmqAgain).

Definition message_tick (m : server_message) : label :=
  RecvTick (SockText (Some (encode_statistics m))).

(** ** The claims as the specification words them *)

(** Once the receive loop has counted [max_timeout] timeouts the capture
    loop is over and no frame is captured or dispatched any more. *)
Definition session_ends_with_receive_loop
    (args : Args) (before after : list label) (s0 : system) : Prop :=
  max_timeout <= current_timeout (exec args before s0) ->
  main_thread (exec args before s0) <> Running /\
  frame_events (trace (exec args (before ++ after) s0)) =
  frame_events (trace (exec args before s0)).

(** A receive that succeeds sets the timeout counter back to zero. *)
Definition success_resets_counter (args : Args) (inp : recv_input) (s : system) : Prop :=
  recv_thread s = Running ->
  result (recv inp (glob s)) = Ret tt ->
  current_timeout (step args (RecvTick inp) s) = 0.


(** No step of any thread changes an authorized identity that is set. *)
Definition authorized_id_is_frozen (args : Args) (l : label) (s : system) : Prop :=
  AUTHORIZED_ID (glob s) <> PNone ->
  AUTHORIZED_ID (glob (step args l s)) = AUTHORIZED_ID (glob s).

(** A receive that fails leaves the eight session variables as they were. *)
Definition failed_recv_changes_nothing (inp : recv_input) (g : globals) : Prop :=
  result (recv inp g) <> Ret tt ->
  session_vars (final (recv inp g)) = session_vars g.

(** Two actuations are at least the cooldown apart ([card_cooldown] is
    in seconds, clock readings in milliseconds). *)
Fixpoint open_times (evs : list event) : list Z :=
  match evs with
  | [] => []
  | EvPrint (PrOpen _ _ t) :: EvActuate _ :: evs' => t :: open_times evs'
  | _ :: evs' => open_times evs'
  end.

Fixpoint spaced (gap : Z) (ts : list Z) : Prop :=
  match ts with
  | t1 :: ((t2 :: _) as ts') => t1 + gap <= t2 /\ spaced gap ts'
  | _ => True
  end.

Definition cooldown_respected (args : Args) (evs : list event) : Prop :=
  spaced (card_cooldown args * 1000) (open_times evs).

(** ** Further observations *)

(** A projection of the globals has the same value after as before. *)
Definition unchanged {A : Type} (proj : globals -> A) (g g' : globals) : Prop :=
  proj g' = proj g.

(** The seven globals that only [recv] assigns. *)
Definition server_vars (g : globals) : list pyval :=
  [id_counter g; BOUNDING_BOXES g; MAIN_BBOX g; CARD2NAME g;
   OPEN_GATE g; RECOGNIZED_ID g; consecutive_occurrence g].

(** The idle clock: [MAIN_BBOX] stays, and while no face is there an
    idle start that is already set stays too. *)
Definition idle_latched (g g' : globals) : Prop :=
  MAIN_BBOX g' = MAIN_BBOX g /\
  (MAIN_BBOX g = PNone -> 0 <= idle_begin g -> idle_begin g' = idle_begin g).

Definition is_dispatch (e : event) : bool :=
  match e with
  | EvDispatch _ _ => true
  | _ => false
  end.

Definition count_events (p : event -> bool) (evs : list event) : nat :=
  List.length (filter p evs).

Definition is_recv_loop_error (e : event) : bool :=
  match e with
  | EvPrint (PrRecvLoopError _) => true
  | _ => false
  end.

(** The iterations of the capture loop that a run starts. *)
Fixpoint main_ticks (args : Args) (ls : list label) (s : system) : Z :=
  match ls with
  | [] => 0
  | l :: ls' =>
      (match l, main_thread s with
       | MainTick _, Running => 1
       | _, _ => 0
       end) + main_ticks args ls' (step args l s)
  end.

(** The camera delivered a frame, and the card reader answered. *)
Definition card_ok (env : tick_env) : bool :=
  match readCardID env with
  | Ret _ => true
  | Raise _ => false
  end.

(** [CARD2NAME[RECOGNIZED_ID]] evaluates. *)
Definition has_name (g : globals) : bool :=
  match py_getitem (CARD2NAME g) (RECOGNIZED_ID g) with
  | Ret _ => true
  | Raise _ => false
  end.

(** The pending sends and the messages on the socket never outnumber
    the dispatches. *)
Definition sends_accounted (s : system) : Prop :=
  (count_events is_socket_send (trace s) + List.length (in_flight s)
   <= count_events is_dispatch (trace s))%nat.

(** The capture thread has been interrupted in the iteration [l]. *)
Definition interrupted (args : Args) (l : label) (s : system) : bool :=
  match l, main_thread s with
  | MainTick env, Running =>
      match result (tick_body args env (set_it (it (glob s) + 1) (glob s))) with
      | Raise KeyboardInterrupt => true
      | _ => false
      end
  | _, _ => false
  end.

(** The loop body up to the gate: capture, dispatch and the
    [if OPEN_GATE:] block. *)
Definition gate_front (args : Args) (env : tick_env) : M image :=
  bgrImg <- capture_and_dispatch args env ;;
  open_gate args env ;;
  ret bgrImg.

(** An iteration in which the display is on and [q] is pressed while
    idle. *)
Definition quit_tick (n : nat) (now : Z) : tick_env := {|
  cap_read := Ret (true, Some (Captured n));
  readCardID := Ret [];
  waitKey_auth := Ret (-1);
  time_open := now;
  emulateCardID := Ret tt;
  time_idle_begin := now;
  time_idle := now;
  time_fps := now;
  show_idle := Ret 113;
  show_boxes := Ret 113
|}.

(** An iteration that is interrupted while the frame is read. *)
Definition interrupt_tick : tick_env := {|
  cap_read := Raise KeyboardInterrupt;
  readCardID := Ret [];
  waitKey_auth := Ret (-1);
  time_open := 0;
  emulateCardID := Ret tt;
  time_idle_begin := 0;
  time_idle := 0;
  time_fps := 0;
  show_idle := Ret (-1);
  show_boxes := Ret (-1)
|}.

(** Further concrete inputs. *)
Definition display_args : Args := parse_args [OptDisplay].

(** An iteration in which [cv2.waitKey(10)] of the key-press
    authorization returns [key]. *)
Definition key_tick (n : nat) (now : Z) (key : Z) : tick_env := {|
  cap_read := Ret (true, Some (Captured n));
  readCardID := Ret [];
  waitKey_auth := Ret key;
  time_open := now;
  emulateCardID := Ret tt;
  time_idle_begin := now;
  time_idle := now;
  time_fps := now;
  show_idle := Ret (-1);
  show_boxes := Ret (-1)
|}.

(** A gate-open message whose name map has no entry for the recognized
    identity. *)
Definition nameless_message : server_message := {|
  candidateTally := [("42", 30)];
  boundingBoxes := [(10, 20, 96, 96)];
  primaryBoundingBox := Some (10, 20, 96, 96);
  identityNames := [];
  gateOpen := true;
  recognizedIdentity := Some "42";
  authorizedIdentity := None;
  consecutiveCount := 30
|}.

(** ** The receive thread inside an iteration

    No lock is taken in [client.py]: the receive thread may run between
    two statements of the capture loop.  For the properties that depend
    on it, the loop body is taken apart at the points where that
    matters, and the receive thread handles a list of inputs at each of
    them. *)

(** What the receive thread makes of the globals while it handles
    [inps], one [recv] after the other. *)
Definition recvs (inps : list recv_input) (g : globals) : globals :=
  fold_left (fun g inp => final (recv inp g)) inps g.

(** The receive thread runs while the capture loop is between two
    statements. *)
Definition meanwhile (inps : list recv_input) : M unit :=
  fun g => (Ret tt, recvs inps g, []).

(** What the receive thread handles
    - [before_test]: before the test [if AUTHORIZED_ID is None:];
    - [before_assign]: between that test and the assignment of
      [AUTHORIZED_ID] (the time of [cv2.waitKey(10)] in virtual mode);
    - [before_dispatch]: between the assignment and the evaluation of
      the arguments of the send thread;
    - [before_gate]: between the dispatch and [if OPEN_GATE:];
    - [before_idle]: between the gate block and [if MAIN_BBOX is None:]. *)
Record interleaving : Type := {
  before_test : list recv_input;
  before_assign : list recv_input;
  before_dispatch : list recv_input;
  before_gate : list recv_input;
  before_idle : list recv_input
}.

Definition no_race : interleaving := {|
  before_test := [];
  before_assign := [];
  before_dispatch := [];
  before_gate := [];
  before_idle := []
|}.

(** The test [if AUTHORIZED_ID is None:] and, when it holds, what the
    key press or the card gives to assign. *)
Definition authorize_decide (args : Args) (env : tick_env) (CardData : list pyval)
  : M (option pyval) :=
  auth <- get AUTHORIZED_ID ;;
  if is_none auth then
    if virtual args then
      pressedKeyCode <- lift (waitKey_auth env) ;;
      ret (if negb (pressedKeyCode =? -1)
           then Some (PStr (chr (Z.land pressedKeyCode 255)))
           else None)
    else
      ret (if (Z.of_nat (List.length CardData) =? 4)
           then Some (nth 0 CardData PNone)
           else None)
  else ret None.

(** The assignment [AUTHORIZED_ID = ...], when there is one. *)
Definition authorize_commit (d : option pyval) : M unit :=
  match d with
  | Some v => assign (set_AUTHORIZED_ID v)
  | None => ret tt
  end.

(** STEP 2 with the receive thread in between. *)
Definition racing_authorize (args : Args) (env : tick_env) (CardData : list pyval)
    (m : interleaving) : M unit :=
  meanwhile (before_test m) ;;
  d <- authorize_decide args env CardData ;;
  meanwhile (before_assign m) ;;
  authorize_commit d ;;
  meanwhile (before_dispatch m).

(** [capture_and_dispatch] with the receive thread in between. *)
Definition racing_front (args : Args) (env : tick_env) (m : interleaving) : M image :=
  r <- lift (cap_read env) ;;
  emit (EvRead (fst r)) ;;
  bgrImg <- lift (cv2_flip (snd r)) ;;
  if negb (fst r) then raise RuntimeError else
  CardData <- (if negb (virtual args)
               then (emit EvCardPoll ;; lift (readCardID env))
               else ret []) ;;
  racing_authorize args env CardData m ;;
  claimed <- get AUTHORIZED_ID ;;
  emit (EvDispatch bgrImg claimed) ;;
  ret bgrImg.

(** [tick_body] with the receive thread in between. *)
Definition racing_body (args : Args) (env : tick_env) (m : interleaving) : M control :=
  bgrImg <- racing_front args env m ;;
  meanwhile (before_gate m) ;;
  open_gate args env ;;
  meanwhile (before_idle m) ;;
  idle_or_show args env bgrImg.

(** What the key press (virtual mode) or the card offers as identity:
    the character of the key unless [waitKey] returns -1, the first
    field of a card with four fields. *)
Definition offered (args : Args) (env : tick_env) (CardData : list pyval)
  : option pyval :=
  if virtual args then
    match waitKey_auth env with
    | Ret key => if negb (key =? -1) then Some (PStr (chr (Z.land key 255))) else None
    | Raise _ => None
    end
  else
    if (Z.of_nat (List.length CardData) =? 4)
    then Some (nth 0 CardData PNone)
    else None.

(** The key read of the key-press authorization does not raise. *)
Definition key_ok (env : tick_env) : bool :=
  match waitKey_auth env with
  | Ret _ => true
  | Raise _ => false
  end.

(** The receive thread applies a message that authorizes 42 while the
    capture loop waits for a key. *)
Definition race_during_wait : interleaving := {|
  before_test := [];
  before_assign :=
    [SockText (Some (encode_statistics (alice_message false (Some "42"))))];
  before_dispatch := [];
  before_gate := [];
  before_idle := []
|}.

(** An iteration in which the card reader raises. *)
Definition card_fails_tick (n : nat) (now : Z) : tick_env := {|
  cap_read := Ret (true, Some (Captured n));
  readCardID := Raise RuntimeError;
  waitKey_auth := Ret (-1);
  time_open := now;
  emulateCardID := Ret tt;
  time_idle_begin := now;
  time_idle := now;
  time_fps := now;
  show_idle := Ret (-1);
  show_boxes := Ret (-1)
|}.

(** * The face database script ([loadOpenFace.py])

    The network, the detector and the aligner are outside calls whose
    results come from environment records, as for the client; indices
    into the database are Python integers, distances stay abstract. *)
Module OpenFace.

(** The exception classes that the handlers of the script tell apart. *)
Inductive exn : Type :=
| Exception
| RuntimeWarning
| NameError
| TypeError
| Cv2Error
| TorchError
| KeyboardInterrupt.

Inductive res (A : Type) : Type :=
| Ok (a : A)
| Err (e : exn).
Arguments Ok {A} a.
Arguments Err {A} e.

(** [except Exception:] catches every class of the list but the
    interrupt. *)
Definition is_Exception (e : exn) : bool :=
  match e with
  | KeyboardInterrupt => false
  | _ => true
  end.

(** The tensor made of an aligned face. *)
Inductive tensor : Type :=
| TensorOf (alignedFace : image).

(** [ReadImage(imgPath)], given what [cv2.imread] returns. *)
Definition ReadImage (imread : option image) : res image :=
  match imread with
  | Some bgrImg => Ok bgrImg
  | None => Err Exception
  end.

(** What the vision calls of [ProcessImage] give for one image:
    - [detected]: the value of [bb] after the detection loop, or the
      exception of a call before it ends;
    - [aligned]: [align.align(...)];
    - [shown]: [cv2.imshow('preproc', ...)]. *)
Record vision : Type := {
  detected : res (option nat);
  aligned : res (option image);
  shown : res unit
}.

(** [ProcessImage(bgrImg, max_ratio)] after its detection loop, with
    [useCuda] true as the script asserts.  The message of the second
    [raise] names [imgPath], which no scope defines: evaluating it raises
    [NameError]. *)
Definition ProcessImage (bgrImg : image) (v : vision) : res tensor :=
  match detected v with
  | Err e => Err e
  | Ok None => Err RuntimeWarning
  | Ok (Some bb) =>
      match aligned v with
      | Err e => Err e
      | Ok None => Err NameError
      | Ok (Some alignedFace) =>
          match shown v with
          | Err e => Err e
          | Ok _ => Ok (TensorOf alignedFace)
          end
      end
  end.

(** One file of the database: what [cv2.imread] and the vision calls
    give for it. *)
Record file : Type := {
  imread : option image;
  vision_of : vision
}.

(** [ReadImage] then [ProcessImage], as in the [try:] of the loading
    loop. *)
Definition process (f : file) : res tensor :=
  match ReadImage (imread f) with
  | Ok img => ProcessImage img (vision_of f)
  | Err e => Err e
  end.

(** The loop over [img_paths] that fills [imgs]:
    [except RuntimeWarning: continue], then [imgs.append(img)]. *)
Fixpoint load_images (files : list file) : res (list tensor) :=
  match files with
  | [] => Ok []
  | f :: rest =>
      match process f with
      | Ok img =>
          match load_images rest with
          | Ok imgs => Ok (img :: imgs)
          | Err e => Err e
          end
      | Err RuntimeWarning => load_images rest
      | Err e => Err e
      end
  end.

(** The tensors of the files that [process] accepts. *)
Definition accepted (files : list file) : list tensor :=
  flat_map (fun f => match process f with
                     | Ok img => [img]
                     | Err _ => []
                     end) files.

(** [find_k_nearest(query_im, k)], given what [dist.topk] gives (the
    distances and the indices, returned as indices and distances): the
    value returned ([None] when the function falls off its end) and the
    line printed.  The [return] sits inside the [for] of
    [if args.verbose:]. *)
Definition find_k_nearest {D : Type} (verbose : bool) (topk : res (list Z * list D))
  : res (option (list Z * list D)) * list (Z * D) :=
  match topk with
  | Err e => (Err e, [])
  | Ok (idxs, ds) =>
      if verbose then
        match combine idxs ds with
        | [] => (Ok None, [])
        | first :: _ => (Ok (Some (idxs, ds)), [first])
        end
      else (Ok None, [])
  end.

(** [acc_idxs], a dict from index to count, in insertion order. *)
Definition counts : Type := list (Z * Z).

(** [if acc_idxs.get(idx) is None: acc_idxs[idx] = 1
     else: acc_idxs[idx] += 1] *)
Fixpoint bump (idx : Z) (acc_idxs : counts) : counts :=
  match acc_idxs with
  | [] => [(idx, 1)]
  | (k, v) :: rest =>
      if k =? idx then (k, v + 1) :: rest else (k, v) :: bump idx rest
  end.

(** [for idx in idxs: ...] *)
Definition tally (idxs : list Z) (acc_idxs : counts) : counts :=
  fold_left (fun acc idx => bump idx acc) idxs acc_idxs.

(** One round of [for k, v in acc_idxs.items():] on
    [(max_idx, max_score)]. *)
Definition best_step (m : Z * Z) (item : Z * Z) : Z * Z :=
  if snd item >? snd m then item else m.

(** The search for the highest count, from [max_idx = -1] and
    [max_score = -1]. *)
Definition best (acc_idxs : counts) : Z * Z :=
  fold_left best_step acc_idxs (-1, -1).

(** The count of an index, 0 when it has none. *)
Fixpoint count_of (idx : Z) (acc_idxs : counts) : Z :=
  match acc_idxs with
  | [] => 0
  | (k, v) :: rest => if k =? idx then v else count_of idx rest
  end.

(** How often an index occurs in a list. *)
Definition occurrences (idx : Z) (idxs : list Z) : Z :=
  Z.of_nat (count_occ Z.eq_dec idxs idx).

(** What the outside world gives in one iteration of the webcam loop:
    - [frame]: [cap.read()], [cv2.imshow('frame', ...)], [cv2.waitKey(1)];
    - [view]: the vision calls of [ProcessImage(bgrImg, -1)];
    - [topk]: the network and [dist.topk(5)] in [find_k_nearest];
    - [listing]: the loop that prints the five matches;
    - [elapsed]: [int(passed_time)]. *)
Record cam (D : Type) : Type := {
  frame : res (option image);
  view : vision;
  topk : res (list Z * list D);
  listing : res unit;
  elapsed : Z
}.
Arguments frame {D} c.
Arguments view {D} c.
Arguments topk {D} c.
Arguments listing {D} c.
Arguments elapsed {D} c.

(** The [try:] block of the webcam loop; unpacking [None] into
    [idxs, ds] raises [TypeError]. *)
Definition tally_frame {D : Type} (verbose : bool) (c : cam D) (bgrImg : image)
    (acc_idxs : counts) : res counts :=
  match ProcessImage bgrImg (view c) with
  | Err e => Err e
  | Ok query_im =>
      match fst (find_k_nearest verbose (topk c)) with
      | Err e => Err e
      | Ok None => Err TypeError
      | Ok (Some (idxs, ds)) =>
          match listing c with
          | Err e => Err e
          | Ok _ => Ok (tally idxs acc_idxs)
          end
      end
  end.

(** One iteration of [while True:]: the new [acc_idxs] and, when the
    five seconds are up, the winner.  An exception before the [try:]
    leaves the loop; inside it, [except Exception: pass]. *)
Definition webcam_tick {D : Type} (verbose : bool) (c : cam D) (acc_idxs : counts)
  : res (counts * option (Z * Z)) :=
  match frame c with
  | Err e => Err e
  | Ok None => Err Cv2Error
  | Ok (Some bgrImg) =>
      match (match tally_frame verbose c bgrImg acc_idxs with
             | Ok acc => Ok acc
             | Err e => if is_Exception e then Ok acc_idxs else Err e
             end) with
      | Err e => Err e
      | Ok acc =>
          if elapsed c mod 5 =? 4
          then Ok ([], Some (best acc))
          else Ok (acc, None)
      end
  end.

(** The webcam loop over a finite stretch of iterations. *)
Fixpoint webcam_run {D : Type} (verbose : bool) (cs : list (cam D)) (acc_idxs : counts)
  : res counts :=
  match cs with
  | [] => Ok acc_idxs
  | c :: rest =>
      match webcam_tick verbose c acc_idxs with
      | Ok (acc, _) => webcam_run verbose rest acc
      | Err e => Err e
      end
  end.

(** A file that loads, one without a face, one that cannot be read. *)
Definition good_file (n : nat) : file := {|
  imread := Some (Captured n);
  vision_of := {| detected := Ok (Some n);
                  aligned := Ok (Some (Captured n));
                  shown := Ok tt |}
|}.

Definition faceless_file (n : nat) : file := {|
  imread := Some (Captured n);
  vision_of := {| detected := Ok None;
                  aligned := Ok None;
                  shown := Ok tt |}
|}.

Definition unreadable_file : file := {|
  imread := None;
  vision_of := {| detected := Ok None;
                  aligned := Ok None;
                  shown := Ok tt |}
|}.

(** A webcam iteration in which everything works and the five nearest
    indices are [idxs]. *)
Definition good_cam (idxs : list Z) (seconds : Z) : cam nat := {|
  frame := Ok (Some (Captured 0));
  view := {| detected := Ok (Some 0%nat);
             aligned := Ok (Some (Captured 0));
             shown := Ok tt |};
  topk := Ok (idxs, map Z.to_nat idxs);
  listing := Ok tt;
  elapsed := seconds
|}.

End OpenFace.

(** * Properties *)

Section Frame.
Variable R : globals -> globals -> Prop.
Hypothesis R_refl : forall g, R g g.
Hypothesis R_trans : forall a b c, R a b -> R b c -> R a c.

Lemma keeps_ret {A : Type} (a : A) : keeps R (ret a).
Proof. intro g; apply R_refl. Qed.

Lemma keeps_raise {A : Type} (e : exn) : keeps R (@raise A e).
Proof. intro g; apply R_refl. Qed.

Lemma keeps_lift {A : Type} (o : outcome A) : keeps R (lift o).
Proof. intro g; apply R_refl. Qed.

Lemma keeps_emit (e : event) : keeps R (emit e).
Proof. intro g; apply R_refl. Qed.

Lemma keeps_get {A : Type} (proj : globals -> A) : keeps R (get proj).
Proof. intro g; apply R_refl. Qed.

Lemma keeps_assign (upd : globals -> globals) :
  (forall g, R g (upd g)) -> keeps R (assign upd).
Proof. intros H g; apply H. Qed.

Lemma keeps_bind {A B : Type} (m : M A) (f : A -> M B) :
  keeps R m -> (forall a, keeps R (f a)) -> keeps R (bind m f).
Proof.
  intros Hm Hf g. unfold bind, final.
  specialize (Hm g). unfold final in Hm.
  destruct (m g) as [[[a | e] g1] ev1]; simpl in *.
  - specialize (Hf a g1). unfold final in Hf.
    destruct (f a g1) as [[r g2] ev2]; simpl in *.
    eapply R_trans; eassumption.
  - exact Hm.
Qed.

Lemma keeps_when (b : bool) (m : M unit) : keeps R m -> keeps R (when b m).
Proof. intro H. destruct b; simpl; [exact H | apply keeps_ret]. Qed.

Lemma keeps_except {A : Type} (m : M A) (h : exn -> M A) :
  keeps R m -> (forall e, keeps R (h e)) -> keeps R (except_RuntimeError m h).
Proof.
  intros Hm Hh g. unfold except_RuntimeError, final.
  specialize (Hm g). unfold final in Hm.
  destruct (m g) as [[[a | e] g1] ev1]; simpl in *; try exact Hm.
  destruct e; simpl; try exact Hm.
  specialize (Hh RuntimeError g1). unfold final in Hh.
  destruct (h RuntimeError g1) as [[r g2] ev2]; simpl in *.
  eapply R_trans; eassumption.
Qed.
End Frame.

Section Emits.
Variable Q : event -> Prop.

Lemma emits_ret {A : Type} (a : A) : emits_only Q (ret a).
Proof. intro g; constructor. Qed.

Lemma emits_raise {A : Type} (e : exn) : emits_only Q (@raise A e).
Proof. intro g; constructor. Qed.

Lemma emits_lift {A : Type} (o : outcome A) : emits_only Q (lift o).
Proof. intro g; constructor. Qed.

Lemma emits_get {A : Type} (proj : globals -> A) : emits_only Q (get proj).
Proof. intro g; constructor. Qed.

Lemma emits_assign (upd : globals -> globals) : emits_only Q (assign upd).
Proof. intro g; constructor. Qed.

Lemma emits_emit (e : event) : Q e -> emits_only Q (emit e).
Proof. intros H g; repeat constructor; exact H. Qed.

Lemma emits_bind {A B : Type} (m : M A) (f : A -> M B) :
  emits_only Q m -> (forall a, emits_only Q (f a)) -> emits_only Q (bind m f).
Proof.
  intros Hm Hf g. unfold bind, emitted.
  specialize (Hm g). unfold emitted in Hm.
  destruct (m g) as [[[a | e] g1] ev1]; simpl in *.
  - specialize (Hf a g1). unfold emitted in Hf.
    destruct (f a g1) as [[r g2] ev2]; simpl in *.
    apply Forall_app; split; assumption.
  - exact Hm.
Qed.

Lemma emits_when (b : bool) (m : M unit) :
  emits_only Q m -> emits_only Q (when b m).
Proof. intro H. destruct b; simpl; [exact H | apply emits_ret]. Qed.
End Emits.

(** Steps through a computation written with the monad's combinators. *)
Ltac frame_step :=
  first
    [ apply keeps_bind; try assumption; intros
    | solve [apply keeps_ret; assumption]
    | solve [apply keeps_raise; assumption]
    | solve [apply keeps_lift; assumption]
    | solve [apply keeps_emit; assumption]
    | solve [apply keeps_get; assumption]
    | apply keeps_when; try assumption
    | match goal with
      | |- keeps _ (if ?b then _ else _) => destruct b
      end ].

Ltac emits_step :=
  first
    [ apply emits_bind; [ | intros ]
    | apply emits_ret
    | apply emits_raise
    | apply emits_lift
    | apply emits_get
    | apply emits_assign
    | apply emits_when
    | match goal with
      | |- emits_only _ (if ?b then _ else _) => destruct b
      end ].

Lemma same_running_refl (g : globals) : same_running g g.
Proof. reflexivity. Qed.

Lemma same_running_trans (a b c : globals) :
  same_running a b -> same_running b c -> same_running a c.
Proof. unfold same_running; congruence. Qed.

Lemma auth_sticks_refl (g : globals) : auth_sticks g g.
Proof. intro; reflexivity. Qed.

Lemma auth_sticks_trans (a b c : globals) :
  auth_sticks a b -> auth_sticks b c -> auth_sticks a c.
Proof.
  unfold auth_sticks; intros H1 H2 Ha.
  rewrite <- (H1 Ha). apply H2. rewrite (H1 Ha). exact Ha.
Qed.

Lemma authorize_same_running (args : Args) (env : tick_env) (cd : list pyval) :
  keeps same_running (authorize args env cd).
Proof.
  intro g. unfold authorize, bind, get, final, same_running.
  destruct g; simpl.
  destruct (is_none AUTHORIZED_ID0); [| reflexivity].
  destruct (virtual args).
  - unfold lift. destruct (waitKey_auth env); [| reflexivity].
    destruct (negb (a =? -1)); reflexivity.
  - destruct (Z.of_nat (List.length cd) =? 4); reflexivity.
Qed.

Lemma authorize_auth_sticks (args : Args) (env : tick_env) (cd : list pyval) :
  keeps auth_sticks (authorize args env cd).
Proof.
  intros g Hg. unfold authorize, bind, get, final.
  destruct g; simpl in *.
  destruct AUTHORIZED_ID0; simpl; try reflexivity.
  congruence.
Qed.

Lemma tick_body_same_running (args : Args) (env : tick_env) :
  keeps same_running (tick_body args env).
Proof.
  pose proof same_running_refl as Hr. pose proof same_running_trans as Ht.
  unfold tick_body, capture_and_dispatch, open_gate, idle_or_show.
  repeat first
    [ apply authorize_same_running
    | apply keeps_assign; intros []; reflexivity
    | frame_step ].
Qed.

Lemma tick_body_auth_sticks (args : Args) (env : tick_env) :
  keeps auth_sticks (tick_body args env).
Proof.
  pose proof auth_sticks_refl as Hr. pose proof auth_sticks_trans as Ht.
  unfold tick_body, capture_and_dispatch, open_gate, idle_or_show.
  repeat first
    [ apply authorize_auth_sticks
    | apply keeps_assign; intros [] ?; reflexivity
    | frame_step ].
Qed.

(** ** Runs *)

Lemma exec_app (args : Args) (l1 l2 : list label) (s : system) :
  exec args (l1 ++ l2) s = exec args l2 (exec args l1 s).
Proof. unfold exec. apply fold_left_app. Qed.

Lemma exec_cons (args : Args) (l : label) (ls : list label) (s : system) :
  exec args (l :: ls) s = exec args ls (step args l s).
Proof. reflexivity. Qed.

Lemma start_ok (args : Args) : start args ok_init = Ret started.
Proof. unfold start, initializeClient; simpl. destruct (virtual args); reflexivity. Qed.

(** ** Configuration *)

(** C8: with no option on the command line the program requires 30
    consecutive frames, lists the top 100, uses a threshold of 50 percent
    and a cooldown of 3 seconds; the socket it opens has a receive
    timeout of 1000 milliseconds and the receive loop allows 100
    timeouts. *)
Theorem configuration_defaults :
  consecutive (parse_args []) = 30 /\
  k (parse_args []) = 100 /\
  threshold (parse_args []) = 50 /\
  card_cooldown (parse_args []) = 3 /\
  (forall (args : Args) (img : image) (now : Z),
      initializeClient args {| first_read := Ret (true, Some img);
                               time_start := now;
                               pirate_init := Ret tt |}
      = Ret (initial_globals now,
             {| connected_to := server_address args; RCVTIMEO := 1000 |})) /\
  max_timeout = 100.
Proof.
  repeat split.
  intros args img now. unfold initializeClient; simpl.
  destruct (virtual args); reflexivity.
Qed.

(** ** The receive path *)

Lemma py_getitem_raises (c k : pyval) (e : exn) :
  py_getitem c k = Raise e -> e = KeyError \/ e = TypeError \/ e = IndexError.
Proof.
  destruct c; simpl; try (intro H; injection H as <-; tauto).
  - destruct (as_index k); [destruct (seq_index _ _) |];
      intro H; try discriminate; injection H as <-; tauto.
  - destruct (as_index k); [destruct (seq_index _ _) |];
      intro H; try discriminate; injection H as <-; tauto.
  - destruct k; try (intro H; injection H as <-; tauto).
    destruct (dict_get s d); intro H; try discriminate; injection H as <-; tauto.
Qed.

Lemma recv_socket_raises (e : exn) (g : globals) : final (recv (SockRaise e) g) = g.
Proof. destruct e; reflexivity. Qed.

Lemma recv_not_json (g : globals) : final (recv (SockText None) g) = g.
Proof. reflexivity. Qed.

Ltac field_case :=
  match goal with
  | |- context [py_getitem ?st (PStr ?f)] =>
      let E := fresh "E" in
      destruct (py_getitem st (PStr f)) as [? | e] eqn:E;
      [ cbn -[py_getitem]
      | destruct (py_getitem_raises _ _ _ E) as [-> | [-> | ->]];
        cbn -[py_getitem];
        repeat split; solve [reflexivity | discriminate | tauto] ]
  end.

(** [recv] on a decoded message: the assignments run in order up to the
    first lookup that raises; nothing is printed. *)
Lemma recv_decoded (statistics : pyval) (g : globals) :
  let r := recv (SockText (Some statistics)) g in
  let n := fields_applied statistics field_names in
  session_vars (final r) =
    firstn n (map (field_value statistics) field_names) ++ skipn n (session_vars g)
  /\ (result r = Ret tt <-> n = 8%nat)
  /\ emitted r = []
  /\ loop_vars (final r) = loop_vars g
  /\ (result r = Ret tt \/ result r = Raise KeyError \/
      result r = Raise TypeError \/ result r = Raise IndexError).
Proof.
  unfold recv, except_RuntimeError, recv_try, bind, lift, assign, final, result,
    emitted, field_names, fields_applied, field_value, loop_vars.
  destruct g. cbn -[py_getitem].
  do 8 field_case.
  repeat split; solve [reflexivity | tauto].
Qed.

(** C6, as amended: a receive that fails before or while decoding leaves
    the globals as they were; on a decoded message the assignments run in
    the order of the source up to the first field whose lookup raises, so
    the variables before that field hold the new values and the others
    the old ones, and [recv] returns normally exactly when all eight
    lookups succeed. *)
Theorem recv_updates_a_prefix (g : globals) :
  (forall e, final (recv (SockRaise e) g) = g) /\
  final (recv (SockText None) g) = g /\
  (forall statistics,
      let r := recv (SockText (Some statistics)) g in
      let n := fields_applied statistics field_names in
      session_vars (final r) =
        firstn n (map (field_value statistics) field_names)
        ++ skipn n (session_vars g)
      /\ (result r = Ret tt <-> n = 8%nat)).
Proof.
  split; [| split].
  - intro e. apply recv_socket_raises.
  - apply recv_not_json.
  - intros statistics r n.
    destruct (recv_decoded statistics g) as (H1 & H2 & _).
    split; assumption.
Qed.

(** C6, as worded, fails on a message that lacks its last four fields:
    [recv] raises [KeyError] at [OPEN_GATE] after four variables have
    been assigned. *)
Lemma truncated_message_updates_half :
  ~ failed_recv_changes_nothing (SockText (Some truncated_message)) (initial_globals 0).
Proof.
  unfold failed_recv_changes_nothing. intro H.
  assert (Hr : result (recv (SockText (Some truncated_message)) (initial_globals 0))
               <> Ret tt) by (vm_compute; discriminate).
  specialize (H Hr). vm_compute in H. discriminate H.
Qed.

Lemma encode_statistics_complete (m : server_message) :
  fields_applied (encode_statistics m) field_names = 8%nat.
Proof. reflexivity. Qed.

(** C7: the dict that [send] pickles has the two keys [bgrImg] (the
    base64 text of the JPEG of the frame) and [AUTHORIZED_ID] (the
    claimed identity, possibly [None]) and this is what goes on the
    socket; a server message has the eight keys that [recv] reads, [recv]
    returns normally on it, and afterwards the eight session variables
    hold its eight fields. *)
Theorem wire_messages
    (bgrImg : image) (claimed : pyval) (m : server_message) (g : globals) :
  dict_keys (client_data bgrImg claimed) = ["bgrImg"; "AUTHORIZED_ID"] /\
  client_data bgrImg claimed =
    [("bgrImg", FBytes (B64 (Jpg bgrImg))); ("AUTHORIZED_ID", FVal claimed)] /\
  send (Ret tt) bgrImg claimed =
    (Ret tt, [EvSocketSend (client_data bgrImg claimed);
              EvPrint (PrSent bgrImg claimed)]) /\
  (exists d, encode_statistics m = PDict d /\ dict_keys d = field_names) /\
  List.length field_names = 8%nat /\
  (let r := recv (SockText (Some (encode_statistics m))) g in
   result r = Ret tt /\
   loop_vars (final r) = loop_vars g /\
   session_vars (final r) =
     [PList (map (fun p => PList [PStr (fst p); PInt (snd p)]) (candidateTally m));
      PList (map py_rect (boundingBoxes m));
      py_optional py_rect (primaryBoundingBox m);
      PDict (map (fun p => (fst p, PStr (snd p))) (identityNames m));
      PBool (gateOpen m);
      py_optional PStr (authorizedIdentity m);
      py_optional PStr (recognizedIdentity m);
      PInt (consecutiveCount m)]) /\
  (forall statistics,
      result (recv (SockText (Some statistics)) g) = Ret tt ->
      fields_applied statistics field_names = 8%nat /\
      session_vars (final (recv (SockText (Some statistics)) g)) =
      map (field_value statistics) field_names).
Proof.
  do 5 (split; [first [reflexivity | eexists; split; reflexivity] |]).
  split.
  - destruct g; repeat split; reflexivity.
  - intros statistics Hok.
    destruct (recv_decoded statistics g) as (H1 & H2 & _).
    apply H2 in Hok. split; [exact Hok |].
    rewrite Hok in H1. rewrite H1. reflexivity.
Qed.

(** ** The capture loop *)

Lemma bind_emitted {A B : Type} (m : M A) (f : A -> M B) (g : globals) :
  emitted (bind m f g) =
  emitted (m g) ++ match result (m g) with
                   | Ret a => emitted (f a (final (m g)))
                   | Raise _ => []
                   end.
Proof.
  unfold bind, emitted, result, final.
  destruct (m g) as [[[a | e] g1] ev1]; simpl.
  - destruct (f a g1) as [[r g2] ev2]; reflexivity.
  - symmetry; apply app_nil_r.
Qed.

(** With a working camera and nothing that raises, the first half of the
    loop body reads a frame and dispatches it with the current claim. *)
Lemma capture_and_dispatch_quiet (args : Args) (n : nat) (now : Z) (g : globals) :
  capture_and_dispatch args (quiet_tick n now) g =
  (Ret (Flipped (Captured n)), g,
   [EvRead true] ++ (if virtual args then [] else [EvCardPoll])
   ++ [EvDispatch (Flipped (Captured n)) (AUTHORIZED_ID g)]).
Proof.
  unfold capture_and_dispatch, authorize, bind, lift, emit, get, ret; simpl.
  destruct (virtual args); simpl; destruct (is_none (AUTHORIZED_ID g)); reflexivity.
Qed.



Lemma main_iter_flag (args : Args) (env : tick_env) (g : globals) :
  IS_CLIENT_RUNNING (snd (fst (main_iter args env g))) =
  match result (tick_body args env (set_it (it g + 1) g)) with
  | Raise KeyboardInterrupt => false
  | _ => IS_CLIENT_RUNNING g
  end.
Proof.
  unfold main_iter, result.
  pose proof (tick_body_same_running args env (set_it (it g + 1) g)) as Hk.
  unfold final, same_running in Hk.
  destruct (tick_body args env (set_it (it g + 1) g)) as [[[c | e] g1] evs]; simpl in *.
  - destruct c; simpl; rewrite Hk; destruct g; reflexivity.
  - destruct e; simpl; try (rewrite Hk; destruct g; reflexivity).
    destruct g1; reflexivity.
Qed.



(** ** The actuator *)

Lemma authorize_silent (Q : event -> Prop) (args : Args) (env : tick_env)
    (cd : list pyval) : emits_only Q (authorize args env cd).
Proof. unfold authorize. repeat first [emits_step | apply emits_emit]. Qed.

Lemma tick_body_virtual_quiet (args : Args) (env : tick_env) :
  virtual args = true -> emits_only not_actuation (tick_body args env).
Proof.
  intro Hv.
  unfold tick_body, capture_and_dispatch, open_gate, idle_or_show.
  rewrite Hv; simpl negb; cbv iota.
  repeat first
    [ apply authorize_silent
    | apply emits_emit; reflexivity
    | emits_step ].
Qed.

Lemma recv_quiet (Q : event -> Prop) (inp : recv_input) :
  (forall l, Q (EvPrint l)) -> emits_only Q (recv inp).
Proof.
  intros HQ g. unfold recv, except_RuntimeError, emitted.
  assert (Ht : emits_only Q (recv_try inp)).
  { unfold recv_try. repeat first [emits_step | apply emits_emit; apply HQ]. }
  specialize (Ht g). unfold emitted in Ht.
  destruct (recv_try inp g) as [[[u | e] g1] ev1]; simpl in *; try exact Ht.
  destruct e; simpl; try exact Ht.
  apply Forall_app; split; [exact Ht | repeat constructor; apply HQ].
Qed.

Lemma recv_iter_quiet (Q : event -> Prop) (inp : recv_input) (c : Z) (g : globals) :
  (forall l, Q (EvPrint l)) -> Forall Q (snd (recv_iter inp c g)).
Proof.
  intro HQ. unfold recv_iter, recv_loop_test.
  pose proof (recv_quiet Q inp HQ g) as Hr. unfold emitted in Hr.
  destruct (recv inp g) as [[[u | e] g1] evs]; simpl in *.
  - apply Forall_app; split; [exact Hr |].
    destruct (IS_CLIENT_RUNNING g1 && (c <? max_timeout)); repeat constructor; apply HQ.
  - destruct e; simpl;
      repeat first
        [ apply Forall_app; split
        | exact Hr
        | match goal with
          | |- context [if ?b then _ else _] => destruct b
          end
        | constructor
        | apply HQ ].
Qed.

Lemma send_thread_quiet (Q : event -> Prop) (o : outcome unit) (img : image) (id : pyval) :
  (forall l, Q (EvPrint l)) -> (forall m, Q (EvSocketSend m)) ->
  Forall Q (send_thread o img id).
Proof.
  intros HP HS. unfold send_thread, send.
  destruct o as [u | e]; [| destruct e]; simpl; repeat constructor;
    first [apply HP | apply HS].
Qed.

Lemma main_iter_virtual_quiet (args : Args) (env : tick_env) (g : globals) :
  virtual args = true -> Forall not_actuation (snd (main_iter args env g)).
Proof.
  intro Hv. unfold main_iter.
  pose proof (tick_body_virtual_quiet args env Hv (set_it (it g + 1) g)) as Hq.
  unfold emitted in Hq.
  destruct (tick_body args env (set_it (it g + 1) g)) as [[[c | e] g1] evs]; simpl in *.
  - destruct c; exact Hq.
  - destruct e; simpl; apply Forall_app; split; try exact Hq;
      repeat constructor.
Qed.

Lemma actuations_none (evs : list event) :
  Forall not_actuation evs -> actuations evs = [].
Proof.
  induction 1 as [| e evs He _ IH]; [reflexivity |].
  unfold actuations in *; simpl. rewrite He. exact IH.
Qed.

Lemma actuations_app (a b : list event) :
  actuations (a ++ b) = actuations a ++ actuations b.
Proof. apply filter_app. Qed.

Lemma step_virtual_quiet (args : Args) (l : label) (s : system) :
  virtual args = true ->
  actuations (trace (step args l s)) = actuations (trace s).
Proof.
  intro Hv. destruct l as [env | inp | n o]; simpl.
  - destruct (main_thread s); try reflexivity. simpl.
    rewrite actuations_app, (actuations_none _ (main_iter_virtual_quiet args env _ Hv)).
    apply app_nil_r.
  - destruct (recv_thread s); try reflexivity. simpl.
    rewrite actuations_app, (actuations_none (snd (recv_iter inp _ _))).
    + apply app_nil_r.
    + apply recv_iter_quiet. reflexivity.
  - destruct (nth_error (in_flight s) n) as [job |]; try reflexivity. simpl.
    rewrite actuations_app, (actuations_none (send_thread _ _ _)).
    + apply app_nil_r.
    + apply send_thread_quiet; reflexivity.
Qed.

(** C10: in virtual mode no run of the client ever calls the actuator; a
    gate-open decision whose name lookup succeeds is printed and nothing
    else happens, whereas in non-virtual mode the same decision is
    printed and then passed to the actuator. *)
Theorem virtual_mode_never_actuates (args : Args) (ls : list label) (s : system) :
  virtual args = true ->
  actuations (trace (exec args ls s)) = actuations (trace s) /\
  (forall env g name,
      truthy (OPEN_GATE g) = true ->
      py_getitem (CARD2NAME g) (RECOGNIZED_ID g) = Ret name ->
      open_gate args env g =
      (Ret tt, g, [EvPrint (PrOpen name (RECOGNIZED_ID g) (time_open env))])) /\
  (forall args' env g name,
      virtual args' = false ->
      truthy (OPEN_GATE g) = true ->
      py_getitem (CARD2NAME g) (RECOGNIZED_ID g) = Ret name ->
      emitted (open_gate args' env g) =
      [EvPrint (PrOpen name (RECOGNIZED_ID g) (time_open env));
       EvActuate (RECOGNIZED_ID g)]).
Proof.
  intro Hv. split; [| split].
  - revert s. induction ls as [| l ls IH]; intro s; [reflexivity |].
    rewrite exec_cons, IH. apply step_virtual_quiet, Hv.
  - intros env g name Ht Hn.
    unfold open_gate, bind, get, lift, emit, ret. rewrite Ht, Hn, Hv. reflexivity.
  - intros args' env g name Hv' Ht Hn.
    unfold open_gate, bind, get, lift, emit, ret, emitted. rewrite Ht, Hn, Hv'. simpl.
    destruct (emulateCardID env); reflexivity.
Qed.

(** C2, on the code: the client actuates on every iteration of the
    capture loop for which [OPEN_GATE] is set.  After one gate-open
    message, two iterations 33 ms apart both call the actuator, well
    inside the 3 s that [--card-cooldown] promises; the option is parsed
    and never read. *)
Theorem open_gate_actuates_on_every_tick :
  let s := exec default_args
             [message_tick (alice_message true None);
              MainTick (quiet_tick 1 1000);
              MainTick (quiet_tick 2 1033)] started in
  actuations (trace s) = [EvActuate (PStr "42"); EvActuate (PStr "42")] /\
  open_times (trace s) = [1000; 1033] /\
  ~ cooldown_respected default_args (trace s) /\
  (forall args n env g,
      main_iter (set_option args (OptCardCooldown n)) env g = main_iter args env g).
Proof.
  split; [reflexivity |].
  split; [reflexivity |].
  split.
  - vm_compute. intros [H _]. apply H. reflexivity.
  - intros args n env g. reflexivity.
Qed.

(** ** The receive loop *)

Lemma recv_iter_glob (inp : recv_input) (c : Z) (g : globals) :
  snd (fst (recv_iter inp c g)) = final (recv inp g).
Proof.
  unfold recv_iter, final.
  destruct (recv inp g) as [[[u | e] g1] evs]; [| destruct e]; reflexivity.
Qed.

Lemma recv_raises_again (inp : recv_input) (g : globals) :
  result (recv inp g) = Raise ZmqAgain <-> is_timeout inp = true.
Proof.
  destruct inp as [e | [statistics |]].
  - destruct e; simpl; split; intro H; try discriminate; reflexivity.
  - destruct (recv_decoded statistics g) as (_ & _ & _ & _ & Hr).
    simpl in *. split; [| discriminate].
    intro H. rewrite H in Hr.
    destruct Hr as [Hr | [Hr | [Hr | Hr]]]; discriminate.
  - simpl; split; discriminate.
Qed.

(** The counter moves only on a timeout, and then by one. *)
Lemma recv_iter_counter (inp : recv_input) (c : Z) (g : globals) :
  snd (fst (fst (recv_iter inp c g))) = c + (if is_timeout inp then 1 else 0).
Proof.
  pose proof (recv_raises_again inp g) as Ha.
  unfold recv_iter. unfold result in Ha.
  destruct (recv inp g) as [[[u | e] g1] evs]; simpl in *.
  - destruct (is_timeout inp); [| lia].
    destruct Ha as [_ Ha]. discriminate (Ha eq_refl).
  - destruct e; simpl;
      try (destruct (is_timeout inp);
           [ destruct Ha as [_ Ha]; discriminate (Ha eq_refl) | lia ]).
    destruct Ha as [Ha _]. rewrite (Ha eq_refl). reflexivity.
Qed.

(** The loop goes on only below [max_timeout]. *)
Lemma recv_iter_running (inp : recv_input) (c : Z) (g : globals) :
  fst (fst (fst (recv_iter inp c g))) = Running ->
  snd (fst (fst (recv_iter inp c g))) < max_timeout.
Proof.
  unfold recv_iter, recv_loop_test.
  destruct (recv inp g) as [[[u | e] g1] evs]; simpl.
  - destruct (IS_CLIENT_RUNNING g1); simpl; try discriminate.
    destruct (c <? max_timeout) eqn:E; try discriminate.
    intros _. apply Z.ltb_lt, E.
  - destruct e; simpl; try discriminate.
    + destruct (IS_CLIENT_RUNNING g1); simpl; try discriminate.
      destruct (c + 1 <? max_timeout) eqn:E; try discriminate.
      intros _. apply Z.ltb_lt, E.
    + destruct (IS_CLIENT_RUNNING g1); simpl; try discriminate.
      destruct (c <? max_timeout) eqn:E; try discriminate.
      intros _. apply Z.ltb_lt, E.
Qed.

Lemma recv_same_running (inp : recv_input) : keeps same_running (recv inp).
Proof.
  pose proof same_running_refl as Hr. pose proof same_running_trans as Ht.
  unfold recv. apply keeps_except; try assumption.
  - unfold recv_try.
    repeat first [ apply keeps_assign; intros []; reflexivity | frame_step ].
  - intro e. apply keeps_emit; assumption.
Qed.

Lemma frame_events_none (evs : list event) :
  Forall is_print evs -> frame_events evs = [].
Proof.
  induction 1 as [| e evs He _ IH]; [reflexivity |].
  unfold frame_events in *; simpl. rewrite He. exact IH.
Qed.

(** A step of the receive thread touches neither the capture loop nor
    the pending sends, and captures or dispatches nothing. *)
Lemma recv_step_frame (args : Args) (inp : recv_input) (s : system) :
  let s' := step args (RecvTick inp) s in
  main_thread s' = main_thread s /\
  IS_CLIENT_RUNNING (glob s') = IS_CLIENT_RUNNING (glob s) /\
  in_flight s' = in_flight s /\
  frame_events (trace s') = frame_events (trace s).
Proof.
  simpl. destruct (recv_thread s); simpl; try (repeat split; reflexivity).
  repeat split.
  - rewrite recv_iter_glob. apply (recv_same_running inp (glob s)).
  - pose proof (frame_events_none
                  (snd (recv_iter inp (current_timeout s) (glob s)))) as Hn.
    unfold frame_events in *. rewrite filter_app, Hn.
    + apply app_nil_r.
    + apply recv_iter_quiet. reflexivity.
Qed.

Lemma step_counter_in_bound (args : Args) (l : label) (s : system) :
  counter_in_bound s -> counter_in_bound (step args l s).
Proof.
  unfold counter_in_bound. intro H.
  destruct l as [env | inp | n o]; simpl.
  - destruct (main_thread s); simpl; exact H.
  - destruct (recv_thread s) eqn:E; try (rewrite E; exact H). simpl.
    apply recv_iter_running.
  - destruct (nth_error (in_flight s) n); simpl; exact H.
Qed.

Lemma exec_counter_in_bound (args : Args) (ls : list label) (s : system) :
  counter_in_bound s -> counter_in_bound (exec args ls s).
Proof.
  revert s. induction ls as [| l ls IH]; intros s H; [exact H |].
  rewrite exec_cons. apply IH, step_counter_in_bound, H.
Qed.

Lemma step_counter (args : Args) (l : label) (s : system) :
  current_timeout (step args l s) =
  current_timeout s + match l, recv_thread s with
                      | RecvTick inp, Running => if is_timeout inp then 1 else 0
                      | _, _ => 0
                      end.
Proof.
  destruct l as [env | inp | n o]; simpl.
  - destruct (main_thread s); simpl; lia.
  - destruct (recv_thread s); simpl; try lia. apply recv_iter_counter.
  - destruct (nth_error (in_flight s) n); simpl; lia.
Qed.

(** C1, as worded, fails on the run of 100 timeouts followed by one
    iteration of the capture loop: the capture loop is still running
    after the 100th timeout and the iteration captures and dispatches a
    frame. *)
Lemma capture_goes_on_after_100_timeouts :
  ~ session_ends_with_receive_loop default_args
      (repeat timeout_tick 100) [MainTick (quiet_tick 1 1000)] started.
Proof.
  unfold session_ends_with_receive_loop. intro H.
  assert (Hc : max_timeout <=
               current_timeout (exec default_args (repeat timeout_tick 100) started))
    by (vm_compute; discriminate).
  destruct (H Hc) as [Hm _]. apply Hm. vm_compute. reflexivity.
Qed.

(** C3, as amended: the counter of the receive loop counts every timeout
    since the loop started.  A step of the running loop adds one on a
    timeout and nothing otherwise, so a message that is received and
    applied leaves the counter as it is; along a run the counter has
    grown by the number of timeouts met; and the loop goes on only while
    the counter is below [max_timeout]. *)
Theorem timeout_counter_counts_all_timeouts
    (args : Args) (ls : list label) (s : system) :
  recv_thread s = Running ->
  (forall inp,
      current_timeout (step args (RecvTick inp) s) =
      current_timeout s + (if is_timeout inp then 1 else 0)) /\
  (forall m, current_timeout (step args (message_tick m) s) = current_timeout s) /\
  (forall inp,
      recv_thread (step args (RecvTick inp) s) = Running ->
      current_timeout (step args (RecvTick inp) s) < max_timeout) /\
  current_timeout (exec args ls s) = current_timeout s + timeouts_seen args ls s.
Proof.
  intro Hrun. split; [| split; [| split]].
  - intro inp. rewrite step_counter, Hrun. reflexivity.
  - intro m. unfold message_tick. rewrite step_counter, Hrun. simpl. lia.
  - intro inp. simpl. rewrite Hrun. simpl. apply recv_iter_running.
  - clear Hrun. revert s. induction ls as [| l ls IH]; intro s.
    + simpl. lia.
    + rewrite exec_cons, IH, step_counter. simpl. lia.
Qed.

(** C3, as worded, fails on a message that arrives after one timeout: it
    is received and applied, and the counter stays at one. *)
Lemma message_after_timeout_keeps_counter :
  ~ success_resets_counter default_args
      (SockText (Some (encode_statistics (alice_message false None))))
      (exec default_args [timeout_tick] started).
Proof.
  unfold success_resets_counter. intro H.
  assert (H1 : current_timeout
                 (step default_args
                    (RecvTick (SockText (Some (encode_statistics
                                                 (alice_message false None)))))
                    (exec default_args [timeout_tick] started)) = 0)
    by (apply H; reflexivity).
  vm_compute in H1. discriminate H1.
Qed.

(** ** The authorized identity *)

Lemma fields_applied_le (statistics : pyval) (names : list string) :
  (fields_applied statistics names <= List.length names)%nat.
Proof.
  induction names as [| f names IH]; simpl; [lia |].
  destruct (py_getitem statistics (PStr f)); lia.
Qed.

Lemma recv_overwrites_authorized_id (statistics : pyval) (g : globals) :
  (6 <= fields_applied statistics field_names)%nat ->
  AUTHORIZED_ID (final (recv (SockText (Some statistics)) g)) =
  field_value statistics "AUTHORIZED_ID".
Proof.
  intro H6.
  destruct (recv_decoded statistics g) as (H1 & _).
  pose proof (fields_applied_le statistics field_names) as H8.
  apply (f_equal (fun l => nth 5 l PNone)) in H1.
  destruct (fields_applied statistics field_names)
    as [| [| [| [| [| [| n]]]]]]; try lia.
  exact H1.
Qed.

(** C5, as worded, fails when a card has set the authorized identity and
    the next server message carries [AUTHORIZED_ID: null]: the message
    clears it. *)
Lemma server_message_clears_authorized_id :
  ~ authorized_id_is_frozen default_args (message_tick (alice_message false None))
      (exec default_args [MainTick (card_tick 1 10 (PStr "42"))] started).
Proof.
  unfold authorized_id_is_frozen. intro H.
  assert (H1 : AUTHORIZED_ID
                 (glob (exec default_args [MainTick (card_tick 1 10 (PStr "42"))]
                          started)) <> PNone)
    by (vm_compute; discriminate).
  specialize (H H1). vm_compute in H. discriminate H.
Qed.

(** ** The send threads *)

Lemma remove_nth_app {A : Type} (n : nat) (l d : list A) (x : A) :
  nth_error l n = Some x -> remove_nth n (l ++ d) = remove_nth n l ++ d.
Proof.
  revert n. induction l as [| y l IH]; intros [| n] H; simpl in *;
    try discriminate; try reflexivity.
  rewrite (IH n H). reflexivity.
Qed.

Lemma remove_nth_length {A : Type} (n : nat) (l : list A) (x : A) :
  nth_error l n = Some x -> S (List.length (remove_nth n l)) = List.length l.
Proof.
  revert n. induction l as [| y l IH]; intros [| n] H; simpl in *;
    try discriminate; try reflexivity.
  rewrite (IH n H). reflexivity.
Qed.

(** C9: a send thread whose [client_socket.send] raises ends with a
    print (the error line of [send] for a [RuntimeError], the thread's
    traceback otherwise), puts nothing on the socket and is gone from
    the pending sends: the frame is not sent again.  The globals, the
    capture loop and the receive loop are as before, and an iteration of
    the capture loop does the same whether the failed send has ended or
    is still pending. *)
Theorem failed_send_is_logged_and_dropped
    (args : Args) (s : system) (n : nat) (job : image * pyval) (e : exn) :
  nth_error (in_flight s) n = Some job ->
  let s' := step args (SendTick n (Raise e)) s in
  let printed := send_thread (Raise e) (fst job) (snd job) in
  trace s' = trace s ++ printed /\
  In (EvPrint (match e with
               | RuntimeError => PrSendError e
               | _ => PrTraceback e
               end)) printed /\
  Forall (fun ev => is_socket_send ev = false) printed /\
  in_flight s' = remove_nth n (in_flight s) /\
  S (List.length (in_flight s')) = List.length (in_flight s) /\
  glob s' = glob s /\
  main_thread s' = main_thread s /\
  recv_thread s' = recv_thread s /\
  current_timeout s' = current_timeout s /\
  (forall env,
      let a := step args (MainTick env) s in
      let b := step args (MainTick env) s' in
      glob b = glob a /\
      main_thread b = main_thread a /\
      in_flight b = remove_nth n (in_flight a) /\
      exists evs, trace a = trace s ++ evs /\ trace b = trace s' ++ evs).
Proof.
  intros Hjob s' printed. subst s' printed. simpl. rewrite Hjob. simpl.
  split; [reflexivity |].
  split; [destruct e; simpl; auto |].
  split; [destruct e; simpl; repeat constructor |].
  split; [reflexivity |].
  split; [apply (remove_nth_length n _ job Hjob) |].
  repeat (split; [reflexivity |]).
  intro env. destruct (main_thread s) eqn:Em; simpl.
  - split; [reflexivity |]. split; [reflexivity |]. split.
    + symmetry. apply (remove_nth_app n _ _ job Hjob).
    + eexists; split; reflexivity.
  - rewrite Em. do 3 (split; [reflexivity |]).
    exists []. rewrite !app_nil_r. split; reflexivity.
  - rewrite Em. do 3 (split; [reflexivity |]).
    exists []. rewrite !app_nil_r. split; reflexivity.
Qed.

(** ** The theorems at concrete runs *)

(** One timeout, then a message: the counter stays at one. *)
Lemma timeout_counter_witness :
  recv_thread (exec default_args [timeout_tick] started) = Running /\
  current_timeout
    (step default_args (message_tick (alice_message false None))
       (exec default_args [timeout_tick] started)) = 1.
Proof.
  assert (Hr : recv_thread (exec default_args [timeout_tick] started) = Running)
    by reflexivity.
  destruct (timeout_counter_counts_all_timeouts
              default_args [] (exec default_args [timeout_tick] started) Hr)
    as (_ & H2 & _).
  split; [exact Hr |].
  rewrite (H2 (alice_message false None)). reflexivity.
Defined.


(** The send of the first frame fails with a ZeroMQ error. *)
Lemma failed_send_witness :
  nth_error (in_flight (exec default_args [MainTick (quiet_tick 1 1000)] started)) 0
  = Some (Flipped (Captured 1), PNone) /\
  in_flight (step default_args (SendTick 0 (Raise ZmqError))
               (exec default_args [MainTick (quiet_tick 1 1000)] started)) = [] /\
  main_thread (step default_args (SendTick 0 (Raise ZmqError))
                 (exec default_args [MainTick (quiet_tick 1 1000)] started)) = Running.
Proof.
  assert (Hj : nth_error
                 (in_flight (exec default_args [MainTick (quiet_tick 1 1000)] started))
                 0 = Some (Flipped (Captured 1), PNone)) by reflexivity.
  destruct (failed_send_is_logged_and_dropped
              default_args (exec default_args [MainTick (quiet_tick 1 1000)] started)
              0%nat (Flipped (Captured 1), PNone) ZmqError Hj)
    as (_ & _ & _ & H4 & _ & _ & H7 & _).
  split; [exact Hj |]. split.
  - rewrite H4. reflexivity.
  - rewrite H7. reflexivity.
Defined.

(** A gate-open message in virtual mode: the trace has no actuation. *)
Lemma virtual_mode_witness :
  virtual virtual_args = true /\
  actuations
    (trace (exec virtual_args
              [message_tick (alice_message true None); MainTick (quiet_tick 1 1000)]
              started)) = [].
Proof.
  assert (Hv : virtual virtual_args = true) by reflexivity.
  destruct (virtual_mode_never_actuates
              virtual_args
              [message_tick (alice_message true None); MainTick (quiet_tick 1 1000)]
              started Hv) as (H1 & _).
  split; [exact Hv |]. rewrite H1. reflexivity.
Defined.

(** A full server message is applied field by field. *)
Lemma wire_messages_witness :
  result (recv (SockText (Some (encode_statistics (alice_message true (Some "42")))))
            (initial_globals 0)) = Ret tt /\
  session_vars
    (final (recv (SockText (Some (encode_statistics (alice_message true (Some "42")))))
              (initial_globals 0))) =
  map (field_value (encode_statistics (alice_message true (Some "42")))) field_names.
Proof.
  assert (Hok : result (recv (SockText (Some (encode_statistics
                                                (alice_message true (Some "42")))))
                          (initial_globals 0)) = Ret tt) by reflexivity.
  destruct (wire_messages (Captured 0) PNone (alice_message true (Some "42"))
              (initial_globals 0)) as (_ & _ & _ & _ & _ & _ & H7).
  split; [exact Hok |]. apply (H7 _ Hok).
Defined.

(** The truncated message: four variables new, four old. *)
Lemma recv_prefix_witness :
  fields_applied truncated_message field_names = 4%nat /\
  session_vars (final (recv (SockText (Some truncated_message)) (initial_globals 0))) =
  firstn 4 (map (field_value truncated_message) field_names)
  ++ skipn 4 (session_vars (initial_globals 0)).
Proof.
  assert (H4 : fields_applied truncated_message field_names = 4%nat) by reflexivity.
  destruct (recv_updates_a_prefix (initial_globals 0)) as (_ & _ & H3).
  destruct (H3 truncated_message) as (Hs & _).
  split; [exact H4 |]. rewrite <- H4 at 1 2. exact Hs.
Defined.

(** * Further properties of the client *)

(** ** What each thread writes *)

Lemma bind_result {A B : Type} (m : M A) (f : A -> M B) (g : globals) :
  result (bind m f g) =
  match result (m g) with
  | Ret a => result (f a (final (m g)))
  | Raise e => Raise e
  end.
Proof.
  unfold bind, result, final.
  destruct (m g) as [[[a | e] g1] ev1]; simpl; [| reflexivity].
  destruct (f a g1) as [[r g2] ev2]; reflexivity.
Qed.

Lemma bind_final {A B : Type} (m : M A) (f : A -> M B) (g : globals) :
  final (bind m f g) =
  match result (m g) with
  | Ret a => final (f a (final (m g)))
  | Raise _ => final (m g)
  end.
Proof.
  unfold bind, result, final.
  destruct (m g) as [[[a | e] g1] ev1]; simpl; [| reflexivity].
  destruct (f a g1) as [[r g2] ev2]; reflexivity.
Qed.

Lemma unchanged_refl {A : Type} (p : globals -> A) (g : globals) : unchanged p g g.
Proof. reflexivity. Qed.

Lemma unchanged_trans {A : Type} (p : globals -> A) (a b c : globals) :
  unchanged p a b -> unchanged p b c -> unchanged p a c.
Proof. unfold unchanged; congruence. Qed.

Lemma authorize_unchanged {A : Type} (p : globals -> A)
    (args : Args) (env : tick_env) (cd : list pyval) :
  (forall v g, p (set_AUTHORIZED_ID v g) = p g) ->
  keeps (unchanged p) (authorize args env cd).
Proof.
  intros Hp g. unfold authorize, bind, get, lift, when, assign, ret, final, unchanged.
  simpl. destruct (is_none (AUTHORIZED_ID g)); [| reflexivity].
  destruct (virtual args).
  - destruct (waitKey_auth env) as [key | e]; [| reflexivity].
    destruct (negb (key =? -1)); simpl; [apply Hp | reflexivity].
  - destruct (Z.of_nat (List.length cd) =? 4); simpl; [apply Hp | reflexivity].
Qed.

(** The loop body assigns [AUTHORIZED_ID] and [idle_begin] and nothing
    else. *)
Lemma tick_body_unchanged {A : Type} (p : globals -> A)
    (args : Args) (env : tick_env) :
  (forall v g, p (set_AUTHORIZED_ID v g) = p g) ->
  (forall v g, p (set_idle_begin v g) = p g) ->
  keeps (unchanged p) (tick_body args env).
Proof.
  intros Ha Hi.
  pose proof (unchanged_refl p) as Hr. pose proof (unchanged_trans p) as Ht.
  unfold tick_body, capture_and_dispatch, open_gate, idle_or_show.
  repeat first
    [ apply authorize_unchanged; exact Ha
    | apply keeps_assign; intro; apply Hi
    | frame_step ].
Qed.

Lemma main_iter_unchanged {A : Type} (p : globals -> A)
    (args : Args) (env : tick_env) (g : globals) :
  (forall v g, p (set_AUTHORIZED_ID v g) = p g) ->
  (forall v g, p (set_idle_begin v g) = p g) ->
  (forall v g, p (set_it v g) = p g) ->
  (forall v g, p (set_IS_CLIENT_RUNNING v g) = p g) ->
  p (snd (fst (main_iter args env g))) = p g.
Proof.
  intros Ha Hi Ht Hr. unfold main_iter.
  pose proof (tick_body_unchanged p args env Ha Hi (set_it (it g + 1) g)) as Hk.
  unfold final, unchanged in Hk. rewrite Ht in Hk.
  destruct (tick_body args env (set_it (it g + 1) g)) as [[[c | e] g1] evs];
    simpl in *.
  - destruct c; exact Hk.
  - destruct e; simpl; try exact Hk. rewrite Hr. exact Hk.
Qed.

(** [recv] assigns the eight session variables and nothing else. *)
Lemma recv_unchanged {A : Type} (p : globals -> A) (inp : recv_input) :
  (forall v g, p (set_id_counter v g) = p g) ->
  (forall v g, p (set_BOUNDING_BOXES v g) = p g) ->
  (forall v g, p (set_MAIN_BBOX v g) = p g) ->
  (forall v g, p (set_CARD2NAME v g) = p g) ->
  (forall v g, p (set_OPEN_GATE v g) = p g) ->
  (forall v g, p (set_AUTHORIZED_ID v g) = p g) ->
  (forall v g, p (set_RECOGNIZED_ID v g) = p g) ->
  (forall v g, p (set_consecutive_occurrence v g) = p g) ->
  keeps (unchanged p) (recv inp).
Proof.
  intros H1 H2 H3 H4 H5 H6 H7 H8.
  pose proof (unchanged_refl p) as Hr. pose proof (unchanged_trans p) as Ht.
  unfold recv. apply keeps_except; try assumption.
  - unfold recv_try.
    repeat first
      [ apply keeps_assign; intro;
        first [apply H1 | apply H2 | apply H3 | apply H4
              | apply H5 | apply H6 | apply H7 | apply H8]
      | frame_step ].
  - intro e. apply keeps_emit; assumption.
Qed.

Lemma recv_loop_vars (inp : recv_input) (g : globals) :
  loop_vars (final (recv inp g)) = loop_vars g.
Proof.
  apply (recv_unchanged loop_vars inp); intros v []; reflexivity.
Qed.

Lemma main_iter_it (args : Args) (env : tick_env) (g : globals) :
  it (snd (fst (main_iter args env g))) = it g + 1.
Proof.
  unfold main_iter.
  pose proof (tick_body_unchanged it args env) as Hk.
  specialize (Hk (fun v g => match g with Build_globals _ _ _ _ _ _ _ _ _ _ _ _ => eq_refl end)
                 (fun v g => match g with Build_globals _ _ _ _ _ _ _ _ _ _ _ _ => eq_refl end)
                 (set_it (it g + 1) g)).
  unfold final, unchanged in Hk.
  assert (Hs : it (set_it (it g + 1) g) = it g + 1) by (destruct g; reflexivity).
  rewrite Hs in Hk.
  destruct (tick_body args env (set_it (it g + 1) g)) as [[[c | e] g1] evs];
    simpl in *.
  - destruct c; exact Hk.
  - destruct e; simpl; try exact Hk. destruct g1; exact Hk.
Qed.

Lemma step_it (args : Args) (l : label) (s : system) :
  it (glob (step args l s)) =
  it (glob s) + match l, main_thread s with
                | MainTick _, Running => 1
                | _, _ => 0
                end.
Proof.
  destruct l as [env | inp | n o]; simpl.
  - destruct (main_thread s); simpl; try lia. apply main_iter_it.
  - destruct (recv_thread s); simpl; try lia.
    rewrite recv_iter_glob.
    pose proof (recv_loop_vars inp (glob s)) as H. unfold loop_vars in H.
    injection H as _ _ Hit _. lia.
  - destruct (nth_error (in_flight s) n); simpl; lia.
Qed.

(** X1: [it] counts the iterations of the capture loop that were
    started, whatever their end: the increment sits before the [try],
    so an iteration that raises or breaks is counted too, and no other
    thread touches the counter. *)
Theorem it_counts_started_iterations (args : Args) (ls : list label) (s : system) :
  it (glob (exec args ls s)) = it (glob s) + main_ticks args ls s.
Proof.
  revert s. induction ls as [| l ls IH]; intro s.
  - simpl. lia.
  - rewrite exec_cons, IH, step_it. simpl. lia.
Qed.

Lemma main_step_server_vars (args : Args) (env : tick_env) (s : system) :
  server_vars (glob (step args (MainTick env) s)) = server_vars (glob s).
Proof.
  simpl. destruct (main_thread s); try reflexivity. simpl.
  apply (main_iter_unchanged server_vars); intros v []; reflexivity.
Qed.

(** X2: the capture loop and the send threads never write the seven
    variables that [recv] takes from the server (tally, boxes, main box,
    names, gate flag, recognized identity, consecutive count); of the
    eight session variables the capture loop writes [AUTHORIZED_ID]
    only. *)
Theorem server_vars_have_one_writer (args : Args) (s : system) :
  (forall env, server_vars (glob (step args (MainTick env) s)) = server_vars (glob s)) /\
  (forall n o, glob (step args (SendTick n o) s) = glob s).
Proof.
  split.
  - intro env. apply main_step_server_vars.
  - intros n o. simpl. destruct (nth_error (in_flight s) n); reflexivity.
Qed.

Lemma step_recv_ended (args : Args) (l : label) (s : system) :
  recv_thread s <> Running ->
  recv_thread (step args l s) = recv_thread s /\
  server_vars (glob (step args l s)) = server_vars (glob s).
Proof.
  intro Hr. destruct l as [env | inp | n o].
  - split; [| apply main_step_server_vars].
    simpl. destruct (main_thread s); reflexivity.
  - simpl. destruct (recv_thread s) eqn:E; try (rewrite E; split; reflexivity).
    contradiction Hr; reflexivity.
  - simpl. destruct (nth_error (in_flight s) n); split; reflexivity.
Qed.

(** X3: once the receive thread has ended (by its timeouts, an
    interrupt or an exception), it stays ended and the seven
    server-written variables keep their last values through every
    further run: in particular a gate flag that was set stays set. *)
Theorem server_vars_frozen_after_receive_loop
    (args : Args) (ls : list label) (s : system) :
  recv_thread s <> Running ->
  recv_thread (exec args ls s) = recv_thread s /\
  server_vars (glob (exec args ls s)) = server_vars (glob s).
Proof.
  revert s. induction ls as [| l ls IH]; intros s Hr; [split; reflexivity |].
  rewrite exec_cons.
  destruct (step_recv_ended args l s Hr) as [H1 H2].
  destruct (IH (step args l s)) as [H3 H4]; [rewrite H1; exact Hr |].
  split; congruence.
Qed.

(** ** The loop body, piece by piece *)

Lemma tick_body_front (args : Args) (env : tick_env) (g : globals) :
  tick_body args env g = bind (gate_front args env) (idle_or_show args env) g.
Proof.
  unfold tick_body, gate_front, bind, ret.
  destruct (capture_and_dispatch args env g) as [[[img | e] g1] ev1]; [| reflexivity].
  destruct (open_gate args env g1) as [[[u | e] g2] ev2].
  - rewrite app_nil_r.
    destruct (idle_or_show args env img g2) as [[r g3] ev3].
    rewrite app_assoc. reflexivity.
  - reflexivity.
Qed.

(** Case analysis on the innermost scrutinee of the goal. *)
Ltac break_match :=
  match goal with
  | |- context [match ?x with _ => _ end] =>
      lazymatch x with
      | context [match _ with _ => _ end] => fail
      | _ => destruct x eqn:?; simpl
      end
  end.

Lemma idle_or_show_emits (Q : event -> Prop)
    (args : Args) (env : tick_env) (img : image) :
  (forall f, Q (EvShow f)) -> emits_only Q (idle_or_show args env img).
Proof.
  intro HQ. unfold idle_or_show.
  repeat first [apply emits_emit; apply HQ | emits_step].
Qed.

Lemma open_gate_emits (Q : event -> Prop) (args : Args) (env : tick_env) :
  (forall n i t, Q (EvPrint (PrOpen n i t))) -> (forall id, Q (EvActuate id)) ->
  emits_only Q (open_gate args env).
Proof.
  intros HP HA. unfold open_gate.
  repeat first [apply emits_emit; first [apply HP | apply HA] | emits_step].
Qed.

Lemma dispatched_app (a b : list event) :
  dispatched (a ++ b) = dispatched a ++ dispatched b.
Proof. apply flat_map_app. Qed.

Lemma dispatched_none (evs : list event) :
  Forall (fun e => is_dispatch e = false) evs -> dispatched evs = [].
Proof.
  induction 1 as [| e evs He _ IH]; [reflexivity |].
  unfold dispatched in *; simpl. rewrite IH.
  destruct e; try discriminate; reflexivity.
Qed.

(** The events after the loop body (handler, traceback) are neither
    actuations nor dispatches. *)
Lemma main_iter_events (args : Args) (env : tick_env) (g : globals) :
  actuations (snd (main_iter args env g)) =
    actuations (emitted (tick_body args env (set_it (it g + 1) g))) /\
  dispatched (snd (main_iter args env g)) =
    dispatched (emitted (tick_body args env (set_it (it g + 1) g))).
Proof.
  unfold main_iter, emitted.
  destruct (tick_body args env (set_it (it g + 1) g)) as [[[c | e] g1] evs]; simpl.
  - destruct c; split; reflexivity.
  - destruct e; simpl; rewrite actuations_app, dispatched_app; simpl;
      rewrite !app_nil_r; split; reflexivity.
Qed.

Lemma gate_front_actuations (args : Args) (env : tick_env) (g : globals) :
  actuations (emitted (gate_front args env g)) =
  if negb (virtual args) && negb (capture_failed env) && card_ok env
     && truthy (OPEN_GATE g) && has_name g
  then [EvActuate (RECOGNIZED_ID g)] else [].
Proof.
  unfold gate_front, capture_and_dispatch, authorize, open_gate, capture_failed,
    card_ok, has_name, bind, lift, emit, get, ret, raise, when, assign, emitted.
  destruct g. simpl.
  destruct (cap_read env) as [[[|] [i |]] | e]; simpl; try reflexivity;
    try (rewrite !andb_false_r; reflexivity).
  destruct (virtual args); simpl.
  - repeat break_match; reflexivity.
  - destruct (readCardID env) as [cd | e]; simpl; [| reflexivity].
    repeat break_match; reflexivity.
Qed.

Lemma tick_body_actuations (args : Args) (env : tick_env) (g : globals) :
  actuations (emitted (tick_body args env g)) =
  actuations (emitted (gate_front args env g)).
Proof.
  rewrite tick_body_front, bind_emitted, actuations_app.
  destruct (result (gate_front args env g)) as [img | e].
  - rewrite (actuations_none (emitted (idle_or_show _ _ _ _))).
    + apply app_nil_r.
    + apply (idle_or_show_emits not_actuation). reflexivity.
  - apply app_nil_r.
Qed.

Lemma main_iter_actuations (args : Args) (env : tick_env) (g : globals) :
  actuations (snd (main_iter args env g)) =
  if negb (virtual args) && negb (capture_failed env) && card_ok env
     && truthy (OPEN_GATE g) && has_name g
  then [EvActuate (RECOGNIZED_ID g)] else [].
Proof.
  destruct (main_iter_events args env g) as [Ha _].
  rewrite Ha, tick_body_actuations, gate_front_actuations.
  destruct g; reflexivity.
Qed.


Lemma missing_name_iteration
    (args : Args) (env : tick_env) (g : globals) (e : exn) :
  virtual args = false ->
  capture_failed env = false ->
  card_ok env = true ->
  truthy (OPEN_GATE g) = true ->
  py_getitem (CARD2NAME g) (RECOGNIZED_ID g) = Raise e ->
  fst (fst (main_iter args env g)) = Died e /\
  List.length (dispatched (snd (main_iter args env g))) = 1%nat /\
  IS_CLIENT_RUNNING (snd (fst (main_iter args env g))) = IS_CLIENT_RUNNING g.
Proof.
  intros Hv Hc Hd Ht He.
  destruct (py_getitem_raises _ _ _ He) as [-> | [-> | ->]];
    unfold main_iter, tick_body, capture_and_dispatch, authorize, open_gate,
      capture_failed, card_ok, bind, lift, emit, get, ret, raise, when, assign in *;
    destruct g; simpl in *; rewrite Hv; simpl;
    destruct (cap_read env) as [[[|] [i |]] | x]; try discriminate; simpl;
    destruct (readCardID env) as [cd | x]; try discriminate; simpl;
    (destruct (is_none AUTHORIZED_ID0);
       [destruct (Z.of_nat (List.length cd) =? 4) |]);
    simpl; rewrite Ht; simpl; rewrite He; simpl; repeat split; reflexivity.
Qed.

(** X5: when [OPEN_GATE] is truthy and the lookup
    [CARD2NAME[RECOGNIZED_ID]] raises (no entry for the identity), a
    non-virtual iteration with a working camera and card reader ends the
    capture loop with that exception: the frame has been dispatched, the
    actuator is not called, and the running flag stays as it was. *)
Theorem missing_name_ends_capture_loop
    (args : Args) (env : tick_env) (g : globals) (e : exn) :
  virtual args = false ->
  capture_failed env = false ->
  card_ok env = true ->
  truthy (OPEN_GATE g) = true ->
  py_getitem (CARD2NAME g) (RECOGNIZED_ID g) = Raise e ->
  fst (fst (main_iter args env g)) = Died e /\
  actuations (snd (main_iter args env g)) = [] /\
  List.length (dispatched (snd (main_iter args env g))) = 1%nat /\
  IS_CLIENT_RUNNING (snd (fst (main_iter args env g))) = IS_CLIENT_RUNNING g.
Proof.
  intros Hv Hc Hd Ht He.
  destruct (missing_name_iteration args env g e Hv Hc Hd Ht He) as (H1 & H2 & H3).
  split; [exact H1 |]. split; [| split; assumption].
  rewrite main_iter_actuations. unfold has_name. rewrite He.
  rewrite !andb_false_r. reflexivity.
Qed.

(** ** Dispatch *)

Lemma capture_and_dispatch_jobs (args : Args) (env : tick_env) (g : globals) :
  dispatched (emitted (capture_and_dispatch args env g)) =
    match result (capture_and_dispatch args env g) with
    | Ret img => [(img, AUTHORIZED_ID (final (capture_and_dispatch args env g)))]
    | Raise _ => []
    end /\
  (forall img, result (capture_and_dispatch args env g) = Ret img ->
               exists i, cap_read env = Ret (true, Some i) /\ img = Flipped i).
Proof.
  unfold capture_and_dispatch, authorize, bind, lift, emit, get, ret, raise, when,
    assign, emitted, result, final, dispatched.
  destruct g. simpl.
  destruct (cap_read env) as [[[|] [i |]] | e]; simpl;
    try (split; [reflexivity | intros img H; discriminate H]).
  destruct (virtual args); simpl.
  - repeat break_match;
      (split; [reflexivity
              | intros img H; first [discriminate H
                                    | injection H as <-; eexists; split; reflexivity]]).
  - destruct (readCardID env) as [cd | e]; simpl;
      [| split; [reflexivity | intros img H; discriminate H]].
    repeat break_match;
      (split; [reflexivity
              | intros img H; first [discriminate H
                                    | injection H as <-; eexists; split; reflexivity]]).
Qed.

Lemma gate_rest_quiet (Q : event -> Prop)
    (args : Args) (env : tick_env) (img : image) :
  (forall n i t, Q (EvPrint (PrOpen n i t))) -> (forall id, Q (EvActuate id)) ->
  (forall f, Q (EvShow f)) ->
  emits_only Q (open_gate args env ;; idle_or_show args env img).
Proof.
  intros HP HA HS. apply emits_bind.
  - apply open_gate_emits; assumption.
  - intros _. apply idle_or_show_emits; assumption.
Qed.

Lemma gate_rest_unchanged {A : Type} (p : globals -> A)
    (args : Args) (env : tick_env) (img : image) :
  (forall v g, p (set_idle_begin v g) = p g) ->
  keeps (unchanged p) (open_gate args env ;; idle_or_show args env img).
Proof.
  intro Hi.
  pose proof (unchanged_refl p) as Hr. pose proof (unchanged_trans p) as Ht.
  unfold open_gate, idle_or_show.
  repeat first [apply keeps_assign; intro; apply Hi | frame_step].
Qed.

Lemma main_iter_authorized (args : Args) (env : tick_env) (g : globals) :
  AUTHORIZED_ID (snd (fst (main_iter args env g))) =
  AUTHORIZED_ID (final (capture_and_dispatch args env (set_it (it g + 1) g))).
Proof.
  assert (Hm : AUTHORIZED_ID (snd (fst (main_iter args env g))) =
               AUTHORIZED_ID (final (tick_body args env (set_it (it g + 1) g)))).
  { unfold main_iter, final.
    destruct (tick_body args env (set_it (it g + 1) g)) as [[[c | e] g1] evs]; simpl.
    - destruct c; reflexivity.
    - destruct e; simpl; try reflexivity. destruct g1; reflexivity. }
  rewrite Hm. unfold tick_body. rewrite bind_final.
  destruct (result (capture_and_dispatch args env (set_it (it g + 1) g)))
    as [img | e]; [| reflexivity].
  apply (gate_rest_unchanged AUTHORIZED_ID args env img).
  intros v []; reflexivity.
Qed.

Lemma main_iter_jobs (args : Args) (env : tick_env) (g : globals) :
  dispatched (snd (main_iter args env g)) =
  match result (capture_and_dispatch args env (set_it (it g + 1) g)) with
  | Ret img => [(img, AUTHORIZED_ID (snd (fst (main_iter args env g))))]
  | Raise _ => []
  end.
Proof.
  destruct (main_iter_events args env g) as [_ Hd]. rewrite Hd.
  rewrite main_iter_authorized.
  unfold tick_body. rewrite bind_emitted, dispatched_app.
  destruct (capture_and_dispatch_jobs args env (set_it (it g + 1) g)) as [Hj _].
  rewrite Hj.
  destruct (result (capture_and_dispatch args env (set_it (it g + 1) g)))
    as [img | e]; [| reflexivity].
  rewrite (dispatched_none (emitted _)); [reflexivity |].
  apply (gate_rest_quiet (fun e => is_dispatch e = false)); reflexivity.
Qed.

(** ** Sends on the socket *)

Lemma count_events_app (p : event -> bool) (a b : list event) :
  (count_events p (a ++ b) = count_events p a + count_events p b)%nat.
Proof. unfold count_events. rewrite filter_app. apply length_app. Qed.

Lemma count_events_none (p : event -> bool) (evs : list event) :
  Forall (fun e => p e = false) evs -> count_events p evs = 0%nat.
Proof.
  induction 1 as [| e evs He _ IH]; [reflexivity |].
  unfold count_events in *; simpl. rewrite He. exact IH.
Qed.

Lemma count_dispatch (evs : list event) :
  count_events is_dispatch evs = List.length (dispatched evs).
Proof.
  induction evs as [| e evs IH]; [reflexivity |].
  unfold count_events, dispatched in *; simpl.
  rewrite length_app, <- IH. destruct e; reflexivity.
Qed.

Lemma tick_body_emits (Q : event -> Prop) (args : Args) (env : tick_env) :
  (forall b, Q (EvRead b)) -> Q EvCardPoll -> (forall f c, Q (EvDispatch f c)) ->
  (forall n i t, Q (EvPrint (PrOpen n i t))) -> (forall id, Q (EvActuate id)) ->
  (forall f, Q (EvShow f)) ->
  emits_only Q (tick_body args env).
Proof.
  intros HR HC HD HP HA HS.
  unfold tick_body, capture_and_dispatch, open_gate, idle_or_show.
  repeat first
    [ apply authorize_silent
    | apply emits_emit;
      first [apply HR | exact HC | apply HD | apply HP | apply HA | apply HS]
    | emits_step ].
Qed.

Lemma main_iter_emits (Q : event -> Prop)
    (args : Args) (env : tick_env) (g : globals) :
  (forall b, Q (EvRead b)) -> Q EvCardPoll -> (forall f c, Q (EvDispatch f c)) ->
  (forall n i t, Q (EvPrint (PrOpen n i t))) -> (forall id, Q (EvActuate id)) ->
  (forall f, Q (EvShow f)) -> Q EvDestroyWindows -> Q EvRelease ->
  Q (EvPrint PrInterrupted) -> (forall e, Q (EvPrint (PrTraceback e))) ->
  Forall Q (snd (main_iter args env g)).
Proof.
  intros HR HC HD HP HA HS HW HL HI HT. unfold main_iter.
  pose proof (tick_body_emits Q args env HR HC HD HP HA HS (set_it (it g + 1) g)) as Hq.
  unfold emitted in Hq.
  destruct (tick_body args env (set_it (it g + 1) g)) as [[[c | e] g1] evs]; simpl in *.
  - destruct c; exact Hq.
  - destruct e; simpl; apply Forall_app; split; try exact Hq;
      repeat constructor; first [exact HW | exact HL | exact HI | apply HT].
Qed.

Lemma send_thread_counts (o : outcome unit) (img : image) (id : pyval) :
  (count_events is_socket_send (send_thread o img id) <= 1)%nat /\
  count_events is_dispatch (send_thread o img id) = 0%nat.
Proof.
  unfold send_thread, send.
  destruct o as [u | e]; [| destruct e]; simpl; split;
    first [reflexivity | unfold count_events; simpl; lia].
Qed.

Lemma step_sends_accounted (args : Args) (l : label) (s : system) :
  sends_accounted s -> sends_accounted (step args l s).
Proof.
  unfold sends_accounted. intro H. destruct l as [env | inp | n o]; simpl.
  - destruct (main_thread s); try exact H. simpl.
    rewrite !count_events_app, length_app, <- count_dispatch.
    rewrite (count_events_none is_socket_send (snd (main_iter args env (glob s)))).
    + lia.
    + apply main_iter_emits; reflexivity.
  - destruct (recv_thread s); try exact H. simpl.
    rewrite !count_events_app.
    rewrite (count_events_none is_socket_send (snd (recv_iter inp _ _))),
            (count_events_none is_dispatch (snd (recv_iter inp _ _))).
    + lia.
    + apply recv_iter_quiet. reflexivity.
    + apply recv_iter_quiet. reflexivity.
  - destruct (nth_error (in_flight s) n) as [job |] eqn:E; try exact H. simpl.
    rewrite !count_events_app.
    destruct (send_thread_counts o (fst job) (snd job)) as [H1 H2].
    pose proof (remove_nth_length n _ job E) as Hl.
    lia.
Qed.

(** X7: in every run the messages that reached the socket, together
    with the send threads still pending, never outnumber the frames
    dispatched: a frame is put on the socket at most once, and nothing
    is sent that the capture loop did not dispatch. *)
Theorem at_most_one_message_per_dispatch
    (args : Args) (ls : list label) (s : system) :
  sends_accounted s -> sends_accounted (exec args ls s).
Proof.
  revert s. induction ls as [| l ls IH]; intros s H; [exact H |].
  rewrite exec_cons. apply IH, step_sends_accounted, H.
Qed.

(** ** Authorization by key press *)

Lemma land_255 (key : Z) : Z.land key 255 = key mod 256.
Proof. change 255 with (Z.ones 8). rewrite Z.land_ones by lia. reflexivity. Qed.

(** X8: in virtual mode, while no identity is authorized, an iteration
    with a working camera in which a key is pressed authorizes the
    one-character string whose code is the key code modulo 256, a code
    between 0 and 255 whatever the key code was; without a key press
    ([waitKey] returns -1) the identity stays [None]. *)
Theorem keypress_identity
    (args : Args) (env : tick_env) (g : globals) (key : Z) :
  virtual args = true ->
  capture_failed env = false ->
  AUTHORIZED_ID g = PNone ->
  waitKey_auth env = Ret key ->
  AUTHORIZED_ID (snd (fst (main_iter args env g))) =
    (if key =? -1 then PNone else PStr (chr (key mod 256))) /\
  0 <= key mod 256 < 256.
Proof.
  intros Hv Hc Hn Hk. split; [| apply Z.mod_pos_bound; lia].
  rewrite main_iter_authorized, <- land_255.
  unfold capture_and_dispatch, authorize, capture_failed, bind, lift, emit, get, ret,
    raise, when, assign, final in *.
  destruct g; simpl in *. subst AUTHORIZED_ID0. rewrite Hv, Hk.
  destruct (cap_read env) as [[[|] [i |]] | e]; try discriminate; simpl.
  destruct (key =? -1); reflexivity.
Qed.

(** ** The idle clock *)

Lemma gate_front_unchanged {A : Type} (p : globals -> A)
    (args : Args) (env : tick_env) :
  (forall v g, p (set_AUTHORIZED_ID v g) = p g) ->
  keeps (unchanged p) (gate_front args env).
Proof.
  intro Ha.
  pose proof (unchanged_refl p) as Hr. pose proof (unchanged_trans p) as Ht.
  unfold gate_front, capture_and_dispatch, open_gate.
  repeat first [apply authorize_unchanged; exact Ha | frame_step].
Qed.

(** [idle_or_show] updates the idle start before anything in it can
    raise. *)
Lemma idle_or_show_idle_begin
    (args : Args) (env : tick_env) (img : image) (g : globals) :
  idle_begin (final (idle_or_show args env img g)) =
    (if is_none (MAIN_BBOX g)
     then if idle_begin g <? 0 then time_idle_begin env else idle_begin g
     else -1) /\
  MAIN_BBOX (final (idle_or_show args env img g)) = MAIN_BBOX g.
Proof.
  unfold idle_or_show, bind, lift, emit, get, ret, raise, when, assign, final.
  destruct g. simpl.
  destruct (is_none MAIN_BBOX0); simpl.
  - destruct (idle_begin0 <? 0); simpl; repeat break_match; split; reflexivity.
  - repeat break_match; split; reflexivity.
Qed.

Lemma main_iter_idle (args : Args) (env : tick_env) (g : globals) :
  (idle_begin (snd (fst (main_iter args env g))),
   MAIN_BBOX (snd (fst (main_iter args env g)))) =
  match result (gate_front args env (set_it (it g + 1) g)) with
  | Ret _ =>
      (if is_none (MAIN_BBOX g)
       then if idle_begin g <? 0 then time_idle_begin env else idle_begin g
       else -1, MAIN_BBOX g)
  | Raise _ => (idle_begin g, MAIN_BBOX g)
  end.
Proof.
  pose (p := fun g : globals => (idle_begin g, MAIN_BBOX g)).
  assert (Hm : p (snd (fst (main_iter args env g))) =
               p (final (tick_body args env (set_it (it g + 1) g)))).
  { unfold main_iter, final.
    destruct (tick_body args env (set_it (it g + 1) g)) as [[[c | e] g1] evs]; simpl.
    - destruct c; reflexivity.
    - destruct e; simpl; try reflexivity. destruct g1; reflexivity. }
  change (p (snd (fst (main_iter args env g))) =
          match result (gate_front args env (set_it (it g + 1) g)) with
          | Ret _ =>
              (if is_none (MAIN_BBOX g)
               then if idle_begin g <? 0 then time_idle_begin env else idle_begin g
               else -1, MAIN_BBOX g)
          | Raise _ => p g
          end).
  rewrite Hm, tick_body_front, bind_final.
  pose proof (gate_front_unchanged p args env) as Hf.
  specialize (Hf (fun v g => match g with
                             | Build_globals _ _ _ _ _ _ _ _ _ _ _ _ => eq_refl
                             end) (set_it (it g + 1) g)).
  unfold unchanged in Hf.
  assert (Hs : p (set_it (it g + 1) g) = p g) by (destruct g; reflexivity).
  rewrite Hs in Hf.
  destruct (result (gate_front args env (set_it (it g + 1) g))) as [img | e];
    [| exact Hf].
  destruct (idle_or_show_idle_begin args env img
              (final (gate_front args env (set_it (it g + 1) g)))) as [H1 H2].
  unfold p in *. injection Hf as Hi Hb.
  rewrite H1, H2, Hi, Hb. reflexivity.
Qed.

(** X9: the idle start is latched.  While no face is reported
    ([MAIN_BBOX] is [None]) an idle start that is already set survives
    every iteration of the capture loop, however the iteration ends; an
    iteration that runs to the end of its body sets it to the clock when
    it was unset (negative) and no face is reported, and back to -1 when
    a face is reported.  The loop never changes [MAIN_BBOX]. *)
Theorem idle_start_is_latched (args : Args) (env : tick_env) (g : globals) :
  (MAIN_BBOX g = PNone -> 0 <= idle_begin g ->
   idle_begin (snd (fst (main_iter args env g))) = idle_begin g) /\
  (forall c, result (tick_body args env (set_it (it g + 1) g)) = Ret c ->
             idle_begin (snd (fst (main_iter args env g))) =
             if is_none (MAIN_BBOX g)
             then if idle_begin g <? 0 then time_idle_begin env else idle_begin g
             else -1) /\
  MAIN_BBOX (snd (fst (main_iter args env g))) = MAIN_BBOX g.
Proof.
  pose proof (main_iter_idle args env g) as H.
  split; [| split].
  - intros Hn Hi.
    destruct (result (gate_front args env (set_it (it g + 1) g)));
      injection H as H _; rewrite H; [| reflexivity].
    rewrite Hn. simpl.
    destruct (idle_begin g <? 0) eqn:E; [| reflexivity].
    apply Z.ltb_lt in E. lia.
  - intros c Hc. rewrite tick_body_front, bind_result in Hc.
    destruct (result (gate_front args env (set_it (it g + 1) g)));
      [| discriminate Hc].
    injection H as H _. exact H.
  - destruct (result (gate_front args env (set_it (it g + 1) g)));
      injection H as _ H; exact H.
Qed.

(** ** Leaving the loop *)

Lemma idle_or_show_break
    (args : Args) (env : tick_env) (img : image) (g : globals) :
  result (idle_or_show args env img g) = Ret Break ->
  display args = true /\
  exists key, (show_idle env = Ret key \/ show_boxes env = Ret key) /\
              Z.land key 255 = ord_q.
Proof.
  unfold idle_or_show, bind, lift, emit, get, ret, raise, when, assign, result.
  destruct g. simpl.
  destruct (display args); simpl.
  - intro H. split; [reflexivity |].
    destruct (is_none MAIN_BBOX0); simpl in H.
    + destruct (show_idle env) as [key | e] eqn:Ek.
      * exists key. split; [left; reflexivity |].
        destruct (Z.land key 255 =? ord_q) eqn:Eq; [apply Z.eqb_eq, Eq |].
        revert H. repeat break_match; discriminate.
      * revert H. repeat break_match; discriminate.
    + destruct (show_boxes env) as [key | e] eqn:Ek.
      * exists key. split; [right; reflexivity |].
        destruct (Z.land key 255 =? ord_q) eqn:Eq; [apply Z.eqb_eq, Eq |].
        revert H. repeat break_match; discriminate.
      * revert H. repeat break_match; discriminate.
  - repeat break_match; discriminate.
Qed.

(** X10: the loop body ends in [break] only with [--display] and a key
    whose low byte is [q] read by one of the two [waitKey] calls of the
    display code; without [--display] the capture loop is left only
    through an exception. *)
Theorem loop_breaks_only_on_quit_key (args : Args) (env : tick_env) (g : globals) :
  result (tick_body args env g) = Ret Break ->
  display args = true /\
  exists key, (show_idle env = Ret key \/ show_boxes env = Ret key) /\
              Z.land key 255 = ord_q.
Proof.
  rewrite tick_body_front, bind_result.
  destruct (result (gate_front args env g)) as [img | e]; [| discriminate].
  apply idle_or_show_break.
Qed.

Lemma recv_iter_stops (inp : recv_input) (c : Z) (g : globals) :
  IS_CLIENT_RUNNING g = false ->
  fst (fst (fst (recv_iter inp c g))) <> Running.
Proof.
  intro Hf. unfold recv_iter, recv_loop_test.
  pose proof (recv_loop_vars inp g) as Hl. unfold loop_vars, final in Hl.
  destruct (recv inp g) as [[[u | e] g1] evs]; simpl in *;
    injection Hl as Hl _ _ _; rewrite Hf in Hl.
  - rewrite Hl. simpl. discriminate.
  - destruct e; simpl; try rewrite Hl; simpl; discriminate.
Qed.

(** X11: the running flag is cleared by the manual interrupt of the
    capture thread and by nothing else: after any step it is the flag
    before, unless the step is an iteration of the capture loop whose
    body raised [KeyboardInterrupt].  A quit key or a crash of the
    capture loop leave it set, so the receive loop goes on.  Once it is
    cleared, the receive loop does not survive its next iteration. *)
Theorem running_flag_cleared_only_by_interrupt (args : Args) (s : system) :
  (forall l, IS_CLIENT_RUNNING (glob (step args l s)) =
             IS_CLIENT_RUNNING (glob s) && negb (interrupted args l s)) /\
  (IS_CLIENT_RUNNING (glob s) = false ->
   forall inp, recv_thread (step args (RecvTick inp) s) <> Running).
Proof.
  split.
  - intros [env | inp | n o]; unfold interrupted; simpl.
    + destruct (main_thread s); simpl; try (rewrite andb_true_r; reflexivity).
      rewrite main_iter_flag.
      destruct (result (tick_body args env (set_it (it (glob s) + 1) (glob s))))
        as [c | e]; [rewrite andb_true_r; reflexivity |].
      destruct e; simpl; try (rewrite andb_true_r; reflexivity).
      rewrite andb_false_r; reflexivity.
    + rewrite andb_true_r.
      destruct (recv_thread s); simpl; try reflexivity.
      rewrite recv_iter_glob.
      pose proof (recv_loop_vars inp (glob s)) as H. unfold loop_vars in H.
      injection H as H _ _ _. exact H.
    + rewrite andb_true_r.
      destruct (nth_error (in_flight s) n); reflexivity.
  - intros Hf inp. simpl. destruct (recv_thread s) eqn:E; simpl;
      try (rewrite E; discriminate).
    apply recv_iter_stops, Hf.
Qed.

(** ** How the receive loop ends *)

Lemma recv_iter_decoded (statistics : pyval) (c : Z) (g : globals) :
  fst (fst (fst (recv_iter (SockText (Some statistics)) c g))) =
  match result (recv (SockText (Some statistics)) g) with
  | Ret _ => if IS_CLIENT_RUNNING g && (c <? max_timeout) then Running else Exited
  | Raise e => Died e
  end.
Proof.
  destruct (recv_decoded statistics g) as (_ & _ & _ & Hl & Hr).
  unfold recv_iter, recv_loop_test. unfold result, final, loop_vars in *.
  destruct (recv (SockText (Some statistics)) g) as [[[u | e] g1] evs]; simpl in *.
  - injection Hl as Hl _ _ _. rewrite Hl.
    destruct (IS_CLIENT_RUNNING g && (c <? max_timeout)); reflexivity.
  - destruct Hr as [Hr | [Hr | [Hr | Hr]]]; try discriminate Hr;
      injection Hr as ->; reflexivity.
Qed.

(** X12: one bad message ends the receive loop for good.  A text that
    is not JSON kills the receive thread with [ValueError]; a decoded
    message in which one of the eight lookups raises kills it with that
    [KeyError], [TypeError] or [IndexError] (no handler of
    [asyncRecvLoop] matches them); a message with all eight fields keeps
    the loop going as long as the running flag is set and the timeout
    counter is below its bound. *)
Theorem bad_message_kills_receive_thread (args : Args) (s : system) :
  recv_thread s = Running ->
  recv_thread (step args (RecvTick (SockText None)) s) = Died ValueError /\
  (forall statistics,
      (fields_applied statistics field_names < 8)%nat ->
      exists e, recv_thread (step args (RecvTick (SockText (Some statistics))) s)
                = Died e /\ (e = KeyError \/ e = TypeError \/ e = IndexError)) /\
  (forall statistics,
      fields_applied statistics field_names = 8%nat ->
      recv_thread (step args (RecvTick (SockText (Some statistics))) s) =
      if IS_CLIENT_RUNNING (glob s) && (current_timeout s <? max_timeout)
      then Running else Exited).
Proof.
  intro Hrun. split; [| split].
  - simpl. rewrite Hrun. reflexivity.
  - intros statistics Hn. cbn [step]. rewrite Hrun. cbn [recv_thread].
    rewrite recv_iter_decoded.
    destruct (recv_decoded statistics (glob s)) as (_ & H2 & _ & _ & Hr).
    destruct Hr as [Hr | [Hr | [Hr | Hr]]].
    + apply H2 in Hr. lia.
    + rewrite Hr. eexists; split; [reflexivity | tauto].
    + rewrite Hr. eexists; split; [reflexivity | tauto].
    + rewrite Hr. eexists; split; [reflexivity | tauto].
  - intros statistics Hn. cbn [step]. rewrite Hrun. cbn [recv_thread].
    rewrite recv_iter_decoded.
    destruct (recv_decoded statistics (glob s)) as (_ & H2 & _).
    apply H2 in Hn. rewrite Hn. reflexivity.
Qed.

Lemma recv_never_runtime (inp : recv_input) (g : globals) :
  result (recv inp g) <> Raise RuntimeError.
Proof.
  unfold recv, except_RuntimeError, result.
  destruct (recv_try inp g) as [[[u | e] g1] evs]; simpl; [discriminate |].
  destruct e; simpl; discriminate.
Qed.

Lemma recv_iter_no_loop_error (inp : recv_input) (c : Z) (g : globals) :
  Forall (fun e => is_recv_loop_error e = false) (snd (recv_iter inp c g)).
Proof.
  pose proof (recv_never_runtime inp g) as Hn.
  pose proof (recv_quiet (fun e => is_recv_loop_error e = false) inp) as Hq.
  unfold recv_iter, recv_loop_test. unfold result in Hn.
  assert (Hr : emits_only (fun e => is_recv_loop_error e = false) (recv_try inp)).
  { unfold recv_try. repeat first [emits_step | apply emits_emit; reflexivity]. }
  assert (He : Forall (fun e => is_recv_loop_error e = false)
                 (emitted (recv inp g))).
  { unfold recv, except_RuntimeError, emitted. specialize (Hr g).
    unfold emitted in Hr.
    destruct (recv_try inp g) as [[[u | e] g1] evs]; simpl in *; try exact Hr.
    destruct e; simpl; try exact Hr.
    apply Forall_app; split; [exact Hr | repeat constructor]. }
  clear Hq Hr. unfold emitted in He.
  destruct (recv inp g) as [[[u | e] g1] evs]; simpl in *.
  - apply Forall_app; split; [exact He |].
    destruct (IS_CLIENT_RUNNING g1 && (c <? max_timeout)); repeat constructor.
  - destruct e; simpl; try (contradiction Hn; reflexivity);
      repeat first
        [ apply Forall_app; split
        | exact He
        | match goal with
          | |- context [if ?b then _ else _] => destruct b
          end
        | constructor ];
      reflexivity.
Qed.

Lemma step_no_loop_error (args : Args) (l : label) (s : system) :
  count_events is_recv_loop_error (trace (step args l s)) =
  count_events is_recv_loop_error (trace s).
Proof.
  destruct l as [env | inp | n o]; simpl.
  - destruct (main_thread s); try reflexivity. simpl.
    rewrite count_events_app, (count_events_none _ (snd (main_iter args env _))).
    + lia.
    + apply main_iter_emits; reflexivity.
  - destruct (recv_thread s); try reflexivity. simpl.
    rewrite count_events_app, (count_events_none _ (snd (recv_iter inp _ _))).
    + lia.
    + apply recv_iter_no_loop_error.
  - destruct (nth_error (in_flight s) n) as [job |]; try reflexivity. simpl.
    rewrite count_events_app, (count_events_none _ (send_thread _ _ _)).
    + lia.
    + unfold send_thread, send.
      destruct o as [u | e]; [| destruct e]; simpl; repeat constructor.
Qed.

(** X13: the [except RuntimeError] clause of [asyncRecvLoop] is dead.
    [recv] never lets a [RuntimeError] out, since its own handler
    catches it, prints the [<recv>] error line and returns; so no run
    ever prints the [<recv loop>] error line, and a [RuntimeError] of the
    socket leaves the globals and the timeout counter as they were. *)
Theorem receive_loop_error_handler_is_dead
    (args : Args) (ls : list label) (s : system) :
  (forall inp g, result (recv inp g) <> Raise RuntimeError) /\
  (forall c g,
      recv_iter (SockRaise RuntimeError) c g =
      (fst (recv_loop_test c g), c, g,
       [EvPrint (PrRecvError RuntimeError)] ++ snd (recv_loop_test c g))) /\
  count_events is_recv_loop_error (trace (exec args ls s)) =
  count_events is_recv_loop_error (trace s).
Proof.
  split; [| split].
  - apply recv_never_runtime.
  - intros c g. reflexivity.
  - revert s. induction ls as [| l ls IH]; intro s; [reflexivity |].
    rewrite exec_cons, IH. apply step_no_loop_error.
Qed.

(** ** Messages, one after the other *)

Lemma globals_ext (g g' : globals) :
  session_vars g = session_vars g' -> loop_vars g = loop_vars g' -> g = g'.
Proof.
  destruct g, g'. unfold session_vars, loop_vars. simpl.
  intros Hs Hl. injection Hs as -> -> -> -> -> -> -> ->.
  injection Hl as -> -> -> ->. reflexivity.
Qed.

Lemma skipn_firstn_app {A : Type} (n : nat) (l rest : list A) :
  (n <= List.length l)%nat -> skipn n (firstn n l ++ rest) = rest.
Proof.
  revert l. induction n as [| n IH]; intros l Hn; [reflexivity |].
  destruct l as [| a l]; simpl in *; [lia |].
  apply IH. lia.
Qed.

Lemma recv_replay (inp : recv_input) (g : globals) :
  final (recv inp (final (recv inp g))) = final (recv inp g).
Proof.
  destruct inp as [e | [statistics |]].
  - rewrite !recv_socket_raises. reflexivity.
  - apply globals_ext.
    + destruct (recv_decoded statistics g) as (H1 & _).
      destruct (recv_decoded statistics (final (recv (SockText (Some statistics)) g)))
        as (H2 & _).
      rewrite H2, H1. f_equal.
      apply skipn_firstn_app.
      rewrite length_map. apply fields_applied_le.
    + rewrite !recv_loop_vars. reflexivity.
  - rewrite !recv_not_json. reflexivity.
Qed.

(** X14: receiving is idempotent on the globals: the same input taken
    twice in a row (a duplicate delivery, a repeated failure, a message
    that breaks off at the same field) leaves the globals exactly as
    after the first time. *)
Theorem recv_is_idempotent (inp : recv_input) (g : globals) :
  final (recv inp (final (recv inp g))) = final (recv inp g).
Proof. apply recv_replay. Qed.

Lemma recv_complete_overrides (inp : recv_input) (statistics : pyval) (g : globals) :
  fields_applied statistics field_names = 8%nat ->
  final (recv (SockText (Some statistics)) (final (recv inp g))) =
  final (recv (SockText (Some statistics)) g).
Proof.
  intro H8. apply globals_ext.
  - destruct (recv_decoded statistics g) as (H1 & _).
    destruct (recv_decoded statistics (final (recv inp g))) as (H2 & _).
    rewrite H8 in H1, H2. rewrite H1, H2. reflexivity.
  - rewrite !recv_loop_vars. reflexivity.
Qed.

(** X15: the last complete message wins.  After a message with all
    eight fields the globals are what that message alone makes of the
    globals before: whatever was received just before it, whole or in
    part, leaves no mark on any of the eight session variables. *)
Theorem last_complete_message_wins
    (inp : recv_input) (statistics : pyval) (g : globals) :
  fields_applied statistics field_names = 8%nat ->
  final (recv (SockText (Some statistics)) (final (recv inp g))) =
  final (recv (SockText (Some statistics)) g) /\
  session_vars (final (recv (SockText (Some statistics)) (final (recv inp g)))) =
  map (field_value statistics) field_names.
Proof.
  intro H8. split.
  - apply recv_complete_overrides, H8.
  - destruct (recv_decoded statistics (final (recv inp g))) as (H2 & _).
    rewrite H8 in H2. exact H2.
Qed.

Lemma getitem_skips_other_key (k f : string) (v : pyval) (d : list (string * pyval)) :
  f <> k ->
  py_getitem (PDict ((k, v) :: d)) (PStr f) = py_getitem (PDict d) (PStr f).
Proof.
  intro Hn. simpl. apply String.eqb_neq in Hn. rewrite Hn. reflexivity.
Qed.

(** X16: [recv] reads the eight keys and nothing else: a key of the
    message that is not one of them changes neither the outcome of
    [recv], nor the globals, nor what is printed. *)
Theorem unknown_key_is_ignored
    (k : string) (v : pyval) (d : list (string * pyval)) (g : globals) :
  ~ In k field_names ->
  recv (SockText (Some (PDict ((k, v) :: d)))) g =
  recv (SockText (Some (PDict d))) g.
Proof.
  intro Hk.
  assert (H : forall f, In f field_names ->
                        py_getitem (PDict ((k, v) :: d)) (PStr f) =
                        py_getitem (PDict d) (PStr f)).
  { intros f Hf. apply getitem_skips_other_key. intros ->. exact (Hk Hf). }
  unfold recv, except_RuntimeError, recv_try, bind, lift.
  cbn -[py_getitem].
  rewrite !H by (simpl; tauto).
  reflexivity.
Qed.

(** ** Counting down *)

Lemma exec_recv_ended (args : Args) (n : nat) (s : system) :
  recv_thread s <> Running -> exec args (repeat timeout_tick n) s = s.
Proof.
  intro Hr. induction n as [| n IH]; [reflexivity |].
  simpl repeat. rewrite exec_cons.
  assert (Hs : step args timeout_tick s = s).
  { unfold timeout_tick. simpl. destruct (recv_thread s); try reflexivity.
    contradiction Hr; reflexivity. }
  rewrite Hs. exact IH.
Qed.

Lemma timeout_step (args : Args) (s : system) :
  recv_thread s = Running ->
  IS_CLIENT_RUNNING (glob s) = true ->
  step args timeout_tick s =
  {| glob := glob s;
     main_thread := main_thread s;
     recv_thread := if current_timeout s + 1 <? max_timeout then Running else Exited;
     current_timeout := current_timeout s + 1;
     in_flight := in_flight s;
     trace := trace s ++
              [EvPrint (PrTimeout (current_timeout s + 1) max_timeout)] ++
              (if current_timeout s + 1 <? max_timeout
               then [] else [EvPrint PrExitingRecvLoop]) |}.
Proof.
  intros Hr Hf. unfold timeout_tick. simpl. rewrite Hr.
  unfold recv_iter, recv_loop_test. simpl. rewrite Hf. simpl.
  destruct (current_timeout s + 1 <? max_timeout); reflexivity.
Qed.

Lemma timeouts_in_a_row (args : Args) (n : nat) (s : system) :
  recv_thread s = Running ->
  IS_CLIENT_RUNNING (glob s) = true ->
  current_timeout s < max_timeout ->
  let s' := exec args (repeat timeout_tick n) s in
  current_timeout s' = Z.min (current_timeout s + Z.of_nat n) max_timeout /\
  recv_thread s' =
    (if current_timeout s + Z.of_nat n <? max_timeout then Running else Exited) /\
  glob s' = glob s /\
  main_thread s' = main_thread s /\
  in_flight s' = in_flight s.
Proof.
  revert s. induction n as [| n IH]; intros s Hr Hf Hc s'; subst s'.
  - simpl. rewrite Z.add_0_r.
    apply Z.ltb_lt in Hc as Hb. rewrite Hb. rewrite Hr.
    repeat split; try reflexivity. lia.
  - simpl repeat. rewrite exec_cons, (timeout_step args s Hr Hf).
    destruct (current_timeout s + 1 <? max_timeout) eqn:E.
    + apply Z.ltb_lt in E.
      match goal with
      | |- context [exec args (repeat timeout_tick n) ?t] =>
          destruct (IH t eq_refl Hf E) as (H1 & H2 & H3 & H4 & H5)
      end.
      cbn [current_timeout recv_thread glob main_thread in_flight] in *.
      rewrite H1, H2, H3, H4, H5.
      replace (current_timeout s + 1 + Z.of_nat n)
        with (current_timeout s + Z.of_nat (S n)) by lia.
      repeat split; reflexivity.
    + apply Z.ltb_ge in E.
      rewrite exec_recv_ended by (simpl; discriminate).
      cbn [current_timeout recv_thread glob main_thread in_flight].
      assert (Hb : (current_timeout s + Z.of_nat (S n) <? max_timeout) = false)
        by (apply Z.ltb_ge; lia).
      rewrite Hb. repeat split; try reflexivity. lia.
Qed.

(** X17: timeouts in a row, counted out.  From a running receive loop
    with the running flag set, [n] receive timeouts in a row leave the
    counter at the smaller of its old value plus [n] and the bound of
    100, and the loop running exactly as long as that sum is below 100;
    the globals, the capture thread and the pending sends are as
    before. *)
Theorem timeouts_counted_out (args : Args) (n : nat) (s : system) :
  recv_thread s = Running ->
  IS_CLIENT_RUNNING (glob s) = true ->
  current_timeout s < max_timeout ->
  let s' := exec args (repeat timeout_tick n) s in
  current_timeout s' = Z.min (current_timeout s + Z.of_nat n) max_timeout /\
  recv_thread s' =
    (if current_timeout s + Z.of_nat n <? max_timeout then Running else Exited) /\
  glob s' = glob s /\
  main_thread s' = main_thread s /\
  in_flight s' = in_flight s.
Proof. apply timeouts_in_a_row. Qed.

(** * Properties of the face database script *)

(** ** Loading the database *)

Lemma load_images_accepts (files : list OpenFace.file) :
  (forall f, In f files ->
             (exists img, OpenFace.process f = OpenFace.Ok img) \/
             OpenFace.process f = OpenFace.Err OpenFace.RuntimeWarning) ->
  OpenFace.load_images files = OpenFace.Ok (OpenFace.accepted files).
Proof.
  induction files as [| f files IH]; intro H; [reflexivity |].
  simpl. unfold OpenFace.accepted in *. simpl.
  rewrite IH by (intros f' Hf'; apply H; right; exact Hf').
  destruct (H f (or_introl eq_refl)) as [[img Hp] | Hp]; rewrite Hp; reflexivity.
Qed.

Lemma load_images_aborts (files : list OpenFace.file) (f : OpenFace.file) :
  In f files -> OpenFace.imread f = None ->
  exists e, OpenFace.load_images files = OpenFace.Err e.
Proof.
  intros Hin Hr. induction files as [| f' files IH]; [contradiction |].
  simpl. destruct Hin as [-> | Hin].
  - unfold OpenFace.process. rewrite Hr. simpl. eexists; reflexivity.
  - destruct (IH Hin) as [e He]. rewrite He.
    destruct (OpenFace.process f') as [img | e'].
    + eexists; reflexivity.
    + destruct e'; eexists; reflexivity.
Qed.

(** X18: loading the database keeps, in order, the tensors of the
    files that are read, detected and aligned, and silently skips the
    files on which no face is found ([RuntimeWarning]); but a single
    file that [cv2.imread] cannot read aborts the whole load, wherever
    it stands in the list, since [ReadImage] raises a plain [Exception]
    that the handler does not catch. *)
Theorem database_load_skips_faceless_aborts_on_unreadable
    (files : list OpenFace.file) :
  ((forall f, In f files ->
              (exists img, OpenFace.process f = OpenFace.Ok img) \/
              OpenFace.process f = OpenFace.Err OpenFace.RuntimeWarning) ->
   OpenFace.load_images files = OpenFace.Ok (OpenFace.accepted files)) /\
  (forall f, In f files -> OpenFace.imread f = None ->
             exists e, OpenFace.load_images files = OpenFace.Err e).
Proof.
  split.
  - apply load_images_accepts.
  - intros f. apply load_images_aborts.
Qed.

(** ** The tally of the webcam loop *)

Lemma bump_count_of (idx k : Z) (acc : OpenFace.counts) :
  OpenFace.count_of k (OpenFace.bump idx acc) =
  OpenFace.count_of k acc + (if idx =? k then 1 else 0).
Proof.
  induction acc as [| [k' v] acc IH]; simpl.
  - destruct (idx =? k); lia.
  - destruct (Z.eqb_spec k' idx) as [-> | Hne]; simpl.
    + destruct (idx =? k); lia.
    + destruct (Z.eqb_spec k' k) as [-> | Hne'].
      * destruct (Z.eqb_spec idx k); [congruence | lia].
      * exact IH.
Qed.

Lemma tally_count_of (idxs : list Z) (k : Z) (acc : OpenFace.counts) :
  OpenFace.count_of k (OpenFace.tally idxs acc) =
  OpenFace.count_of k acc + OpenFace.occurrences k idxs.
Proof.
  unfold OpenFace.tally, OpenFace.occurrences.
  revert acc. induction idxs as [| idx idxs IH]; intro acc; simpl; [lia |].
  rewrite IH, bump_count_of.
  destruct (Z.eq_dec idx k) as [-> | Hne].
  - rewrite Z.eqb_refl. lia.
  - apply Z.eqb_neq in Hne. rewrite Hne. lia.
Qed.

Lemma bump_keys (idx : Z) (acc : OpenFace.counts) :
  NoDup (map fst acc) ->
  NoDup (map fst (OpenFace.bump idx acc)) /\
  (forall k, In k (map fst (OpenFace.bump idx acc)) <->
             k = idx \/ In k (map fst acc)).
Proof.
  induction acc as [| [k' v] acc IH]; simpl; intro Hnd.
  - split; [repeat constructor; simpl; tauto |].
    intro k. intuition congruence.
  - inversion Hnd as [| x l Hnotin Hnd' ]; subst.
    destruct (IH Hnd') as [IH1 IH2].
    destruct (Z.eqb_spec k' idx) as [-> | Hne]; simpl.
    + split; [exact Hnd |]. intro k. intuition congruence.
    + split.
      * constructor; [| exact IH1].
        rewrite IH2. intros [-> | Hin]; [congruence | contradiction].
      * intro k. rewrite IH2. intuition congruence.
Qed.

Lemma tally_keys (idxs : list Z) (acc : OpenFace.counts) :
  NoDup (map fst acc) -> NoDup (map fst (OpenFace.tally idxs acc)).
Proof.
  unfold OpenFace.tally. revert acc.
  induction idxs as [| idx idxs IH]; intros acc Hnd; simpl; [exact Hnd |].
  apply IH, bump_keys, Hnd.
Qed.

Lemma count_of_in (k v : Z) (acc : OpenFace.counts) :
  NoDup (map fst acc) -> In (k, v) acc -> OpenFace.count_of k acc = v.
Proof.
  induction acc as [| [k' v'] acc IH]; simpl; intros Hnd Hin; [contradiction |].
  inversion Hnd as [| x l Hnotin Hnd']; subst.
  destruct Hin as [Heq | Hin].
  - injection Heq as -> ->. rewrite Z.eqb_refl. reflexivity.
  - destruct (Z.eqb_spec k' k) as [-> | Hne]; [| apply IH; assumption].
    exfalso. apply Hnotin. apply (in_map fst) in Hin. exact Hin.
Qed.

(** X19: the tally counts.  After the indices of a frame have been
    tallied, the count of every index is its count before plus the
    number of times it occurs among them (an index without an entry
    counting as 0), and the dict still has one entry per index. *)
Theorem tally_counts_occurrences (idxs : list Z) (k : Z) (acc : OpenFace.counts) :
  OpenFace.count_of k (OpenFace.tally idxs acc) =
    OpenFace.count_of k acc + OpenFace.occurrences k idxs /\
  (NoDup (map fst acc) -> NoDup (map fst (OpenFace.tally idxs acc))).
Proof.
  split; [apply tally_count_of | apply tally_keys].
Qed.

Lemma best_from (acc : OpenFace.counts) (m : Z * Z) :
  let r := fold_left OpenFace.best_step acc m in
  snd m <= snd r /\
  (forall k v, In (k, v) acc -> v <= snd r) /\
  (r = m \/ In r acc).
Proof.
  revert m. induction acc as [| item acc IH]; intro m; simpl.
  - split; [lia |]. split; [intros k v [] | left; reflexivity].
  - destruct (IH (OpenFace.best_step m item)) as (H1 & H2 & H3).
    assert (Hs : snd m <= snd (OpenFace.best_step m item) /\
                 snd item <= snd (OpenFace.best_step m item) /\
                 (OpenFace.best_step m item = m \/
                  OpenFace.best_step m item = item)).
    { unfold OpenFace.best_step.
      destruct (Z.gtb_spec (snd item) (snd m)); simpl; repeat split; try lia; tauto. }
    destruct Hs as (Hs1 & Hs2 & Hs3).
    split; [lia |]. split.
    + intros k v [Heq | Hin].
      * subst item. simpl in Hs2. lia.
      * apply (H2 k v Hin).
    + destruct H3 as [H3 | H3]; [| right; right; exact H3].
      rewrite H3. destruct Hs3 as [-> | ->]; [left | right; left]; reflexivity.
Qed.

(** X20: the search for the winner returns the highest count: no entry
    of the dict has a count above the score returned, and the pair
    returned is an entry of the dict, unless it is the initial
    [(-1, -1)], which it is for the empty dict. *)
Theorem best_is_a_maximum (acc : OpenFace.counts) :
  (forall k v, In (k, v) acc -> v <= snd (OpenFace.best acc)) /\
  (OpenFace.best acc = (-1, -1) \/ In (OpenFace.best acc) acc) /\
  OpenFace.best [] = (-1, -1).
Proof.
  destruct (best_from acc (-1, -1)) as (_ & H2 & H3).
  split; [exact H2 |]. split; [exact H3 | reflexivity].
Qed.

Lemma best_of_tally (idxs : list Z) :
  idxs <> [] ->
  let m := OpenFace.best (OpenFace.tally idxs []) in
  snd m = OpenFace.occurrences (fst m) idxs /\
  (forall k, OpenFace.occurrences k idxs <= snd m) /\
  In (fst m) idxs.
Proof.
  intros Hne m.
  assert (Hnd : NoDup (map fst (OpenFace.tally idxs [])))
    by (apply tally_keys; constructor).
  destruct (best_from (OpenFace.tally idxs []) (-1, -1)) as (Hlow & Hmax & Hin).
  fold (OpenFace.best (OpenFace.tally idxs [])) in Hlow, Hmax, Hin. fold m in Hlow, Hmax, Hin.
  assert (Hocc : forall k, OpenFace.count_of k (OpenFace.tally idxs []) =
                           OpenFace.occurrences k idxs).
  { intro k. rewrite tally_count_of. reflexivity. }
  (* every index with a count is an entry whose count is that count *)
  assert (Hentry : forall (acc : OpenFace.counts) k,
             OpenFace.count_of k acc <> 0 -> In (k, OpenFace.count_of k acc) acc).
  { intros acc k. induction acc as [| [k' v'] acc IH]; simpl; [congruence |].
    destruct (Z.eqb_spec k' k) as [-> | Hk]; [left; reflexivity |].
    intro H. right. apply IH, H. }
  assert (Hfirst : exists i, In i idxs /\ 1 <= OpenFace.occurrences i idxs).
  { destruct idxs as [| i idxs]; [congruence |]. exists i. split; [left; reflexivity |].
    unfold OpenFace.occurrences. simpl. destruct (Z.eq_dec i i); [lia | congruence]. }
  destruct Hfirst as (i & Hi & Hi1).
  assert (Hpos : 1 <= snd m).
  { specialize (Hentry (OpenFace.tally idxs []) i). rewrite Hocc in Hentry.
    specialize (Hmax i _ (Hentry ltac:(lia))). lia. }
  destruct Hin as [Hin | Hin]; [rewrite Hin in Hpos; simpl in Hpos; lia |].
  assert (Hm : OpenFace.count_of (fst m) (OpenFace.tally idxs []) = snd m).
  { apply count_of_in; [exact Hnd |]. destruct m; exact Hin. }
  rewrite Hocc in Hm.
  split; [symmetry; exact Hm |]. split.
  - intro k.
    destruct (Z.eq_dec (OpenFace.occurrences k idxs) 0) as [H0 | H0]; [lia |].
    specialize (Hentry (OpenFace.tally idxs []) k). rewrite Hocc in Hentry.
    apply (Hmax k _ (Hentry H0)).
  - unfold OpenFace.occurrences in Hm.
    destruct (count_occ_In Z.eq_dec idxs (fst m)) as [_ Hc].
    apply Hc. lia.
Qed.

(** X21: tally and search together.  When the indices of some frames
    are tallied from the empty dict, the winner is one of those indices,
    its score is the number of times it occurs among them, and no index
    occurs more often. *)
Theorem winner_is_most_frequent (idxs : list Z) :
  idxs <> [] ->
  let m := OpenFace.best (OpenFace.tally idxs []) in
  snd m = OpenFace.occurrences (fst m) idxs /\
  (forall k, OpenFace.occurrences k idxs <= snd m) /\
  In (fst m) idxs.
Proof. apply best_of_tally. Qed.

(** ** The webcam loop *)

Lemma find_k_nearest_value {D : Type} (verbose : bool)
    (topk : OpenFace.res (list Z * list D)) (r : list Z * list D) :
  fst (OpenFace.find_k_nearest verbose topk) = OpenFace.Ok (Some r) <->
  verbose = true /\ topk = OpenFace.Ok r /\ fst r <> [] /\ snd r <> [].
Proof.
  unfold OpenFace.find_k_nearest.
  destruct topk as [[idxs ds] | e]; simpl.
  - destruct verbose; simpl.
    + destruct idxs as [| i idxs]; simpl.
      * split; [discriminate |]. intros (_ & H & Hne & _).
        injection H as <-. simpl in Hne. congruence.
      * destruct ds as [| d ds]; simpl.
        -- split; [discriminate |]. intros (_ & H & _ & Hne).
           injection H as <-. simpl in Hne. congruence.
        -- split.
           ++ intro H. injection H as <-. repeat split; simpl; discriminate.
           ++ intros (_ & H & _). injection H as <-. reflexivity.
    + split; [discriminate | intros (H & _); discriminate H].
  - split; [discriminate | intros (_ & H & _); discriminate H].
Qed.

(** X22: [find_k_nearest] returns its indices and distances only under
    [--verbose], when the top-k list is not empty, and then after a
    single printed line, since the [return] sits inside the printing
    loop; in every other case that does not raise it returns [None]. *)
Theorem find_k_nearest_returns_only_when_verbose {D : Type}
    (verbose : bool) (topk : OpenFace.res (list Z * list D)) :
  (forall r, fst (OpenFace.find_k_nearest verbose topk) = OpenFace.Ok (Some r) <->
             verbose = true /\ topk = OpenFace.Ok r /\ fst r <> [] /\ snd r <> []) /\
  (List.length (snd (OpenFace.find_k_nearest verbose topk)) <= 1)%nat /\
  (verbose = false ->
   forall r, topk = OpenFace.Ok r ->
             OpenFace.find_k_nearest verbose topk = (OpenFace.Ok None, [])).
Proof.
  split; [| split].
  - intro r. apply find_k_nearest_value.
  - unfold OpenFace.find_k_nearest.
    destruct topk as [[idxs ds] | e]; simpl; [| lia].
    destruct verbose; simpl; [| lia].
    destruct (combine idxs ds); simpl; lia.
  - intros -> [idxs ds] ->. reflexivity.
Qed.

Lemma tally_frame_quiet {D : Type} (c : OpenFace.cam D) (img : image)
    (acc : OpenFace.counts) :
  exists e, OpenFace.tally_frame false c img acc = OpenFace.Err e.
Proof.
  unfold OpenFace.tally_frame.
  destruct (OpenFace.ProcessImage img (OpenFace.view c)) as [q | e];
    [| eexists; reflexivity].
  unfold OpenFace.find_k_nearest.
  destruct (OpenFace.topk c) as [[idxs ds] | e]; simpl; eexists; reflexivity.
Qed.

Lemma webcam_tick_quiet {D : Type} (c : OpenFace.cam D) (acc acc' : OpenFace.counts)
    (w : option (Z * Z)) :
  OpenFace.webcam_tick false c acc = OpenFace.Ok (acc', w) ->
  (acc' = acc /\ w = None) \/ (acc' = [] /\ w = Some (OpenFace.best acc)).
Proof.
  unfold OpenFace.webcam_tick.
  destruct (OpenFace.frame c) as [[img |] | e]; try discriminate.
  destruct (tally_frame_quiet c img acc) as [e He]. rewrite He.
  destruct (OpenFace.is_Exception e); [| discriminate].
  destruct (OpenFace.elapsed c mod 5 =? 4); intro H; injection H as <- <-; tauto.
Qed.

Lemma webcam_run_quiet {D : Type} (cs : list (OpenFace.cam D))
    (acc acc' : OpenFace.counts) :
  OpenFace.webcam_run false cs acc = OpenFace.Ok acc' -> acc' = acc \/ acc' = [].
Proof.
  revert acc. induction cs as [| c cs IH]; intros acc H; simpl in H.
  - injection H as <-. left; reflexivity.
  - destruct (OpenFace.webcam_tick false c acc) as [[acc1 w] | e] eqn:E;
      [| discriminate].
    destruct (webcam_tick_quiet c acc acc1 w E) as [[-> _] | [-> _]].
    + apply IH, H.
    + destruct (IH [] H) as [-> | ->]; right; reflexivity.
Qed.

(** X23: without [--verbose] the webcam loop never tallies anything.
    [find_k_nearest] returns [None], unpacking it raises [TypeError],
    and [except Exception: pass] swallows that: an iteration leaves
    [acc_idxs] as it was or resets it when the five seconds are up, so
    a loop started on the empty dict keeps it empty and every winner is
    the initial [(-1, -1)]. *)
Theorem webcam_tally_needs_verbose {D : Type} (cs : list (OpenFace.cam D))
    (acc acc' : OpenFace.counts) :
  OpenFace.webcam_run false cs acc = OpenFace.Ok acc' ->
  (acc' = acc \/ acc' = []) /\
  (forall c a a' w,
      OpenFace.webcam_tick false (c : OpenFace.cam D) a = OpenFace.Ok (a', w) ->
      (a' = a /\ w = None) \/ (a' = [] /\ w = Some (OpenFace.best a))).
Proof.
  intro H. split.
  - apply (webcam_run_quiet cs), H.
  - intros c a a' w. apply webcam_tick_quiet.
Qed.

Lemma tally_frame_verbose {D : Type} (c : OpenFace.cam D) (img : image)
    (acc acc' : OpenFace.counts) :
  OpenFace.tally_frame true c img acc = OpenFace.Ok acc' ->
  exists idxs ds, OpenFace.topk c = OpenFace.Ok (idxs, ds) /\
                  idxs <> [] /\ acc' = OpenFace.tally idxs acc.
Proof.
  unfold OpenFace.tally_frame.
  destruct (OpenFace.ProcessImage img (OpenFace.view c)) as [q | e];
    [| discriminate].
  destruct (fst (OpenFace.find_k_nearest true (OpenFace.topk c)))
    as [[[idxs ds] |] | e] eqn:E; try discriminate.
  apply find_k_nearest_value in E. destruct E as (_ & Ht & Hne & _).
  destruct (OpenFace.listing c); [| discriminate].
  intro H. injection H as <-.
  exists idxs, ds. repeat split; assumption.
Qed.

(** X24: under [--verbose] an iteration of the webcam loop whose
    [try:] block runs through adds exactly the indices that the top-k
    search returned to the tally: the count of every index grows by the
    number of times it occurs among them. *)
Theorem webcam_tally_under_verbose {D : Type} (c : OpenFace.cam D) (img : image)
    (acc acc' : OpenFace.counts) :
  OpenFace.tally_frame true c img acc = OpenFace.Ok acc' ->
  exists idxs ds,
    OpenFace.topk c = OpenFace.Ok (idxs, ds) /\ idxs <> [] /\
    forall k, OpenFace.count_of k acc' =
              OpenFace.count_of k acc + OpenFace.occurrences k idxs.
Proof.
  intro H. destruct (tally_frame_verbose c img acc acc' H) as (idxs & ds & Ht & Hne & ->).
  exists idxs, ds. repeat split; try assumption.
  intro k. apply tally_count_of.
Qed.

(** * The further properties at concrete inputs *)

(** The receive loop has run out of timeouts with the gate flag unset:
    a later gate-open message is not taken. *)
Lemma server_vars_frozen_witness :
  recv_thread (exec default_args (repeat timeout_tick 100) started) <> Running /\
  server_vars
    (glob (exec default_args
             [message_tick (alice_message true None); MainTick (quiet_tick 1 1000)]
             (exec default_args (repeat timeout_tick 100) started))) =
  server_vars (glob started).
Proof.
  assert (Hr : recv_thread (exec default_args (repeat timeout_tick 100) started)
               <> Running) by (vm_compute; discriminate).
  destruct (server_vars_frozen_after_receive_loop default_args
              [message_tick (alice_message true None); MainTick (quiet_tick 1 1000)]
              (exec default_args (repeat timeout_tick 100) started) Hr) as [_ H].
  split; [exact Hr |]. rewrite H. reflexivity.
Defined.

(** A gate-open message without a name for the identity, then an
    iteration of the capture loop. *)
Lemma missing_name_witness :
  py_getitem
    (CARD2NAME (glob (exec default_args [message_tick nameless_message] started)))
    (RECOGNIZED_ID (glob (exec default_args [message_tick nameless_message] started)))
  = Raise KeyError /\
  fst (fst (main_iter default_args (quiet_tick 1 1000)
              (glob (exec default_args [message_tick nameless_message] started))))
  = Died KeyError.
Proof.
  assert (He : py_getitem
                 (CARD2NAME (glob (exec default_args [message_tick nameless_message]
                                     started)))
                 (RECOGNIZED_ID (glob (exec default_args [message_tick nameless_message]
                                         started)))
               = Raise KeyError) by reflexivity.
  destruct (missing_name_ends_capture_loop default_args (quiet_tick 1 1000)
              (glob (exec default_args [message_tick nameless_message] started))
              KeyError eq_refl eq_refl eq_refl eq_refl He) as [H _].
  split; [exact He | exact H].
Defined.

(** Two frames dispatched, one sent, one failed. *)
Lemma message_accounting_witness :
  sends_accounted started /\
  sends_accounted
    (exec default_args
       [MainTick (quiet_tick 1 1000); MainTick (quiet_tick 2 1033);
        SendTick 0 (Ret tt); SendTick 0 (Raise ZmqError)] started).
Proof.
  assert (H0 : sends_accounted started) by (unfold sends_accounted; simpl; lia).
  split; [exact H0 |].
  apply (at_most_one_message_per_dispatch default_args _ started H0).
Defined.

(** The key [a] with a modifier bit set authorizes ["a"]. *)
Lemma keypress_identity_witness :
  virtual virtual_args = true /\
  AUTHORIZED_ID
    (snd (fst (main_iter virtual_args (key_tick 1 1000 1048673) (initial_globals 0))))
  = PStr "a".
Proof.
  assert (Hv : virtual virtual_args = true) by reflexivity.
  destruct (keypress_identity virtual_args (key_tick 1 1000 1048673)
              (initial_globals 0) 1048673 Hv eq_refl eq_refl eq_refl) as [H _].
  split; [exact Hv |]. rewrite H. reflexivity.
Defined.

(** The idle start set at 500 survives an idle iteration at 1000. *)
Lemma idle_start_witness :
  MAIN_BBOX (set_idle_begin 500 (initial_globals 0)) = PNone /\
  idle_begin (snd (fst (main_iter default_args (quiet_tick 1 1000)
                          (set_idle_begin 500 (initial_globals 0))))) = 500.
Proof.
  assert (Hn : MAIN_BBOX (set_idle_begin 500 (initial_globals 0)) = PNone)
    by reflexivity.
  destruct (idle_start_is_latched default_args (quiet_tick 1 1000)
              (set_idle_begin 500 (initial_globals 0))) as [H _].
  split; [exact Hn |]. rewrite (H Hn); [reflexivity | simpl; lia].
Defined.

(** The quit key with the display on. *)
Lemma quit_key_witness :
  result (tick_body display_args (quit_tick 1 1000) (initial_globals 0)) = Ret Break /\
  display display_args = true.
Proof.
  assert (Hb : result (tick_body display_args (quit_tick 1 1000) (initial_globals 0))
               = Ret Break) by reflexivity.
  destruct (loop_breaks_only_on_quit_key display_args (quit_tick 1 1000)
              (initial_globals 0) Hb) as [H _].
  split; [exact Hb | exact H].
Defined.

(** After the interrupt the receive loop ends at its next iteration,
    even on a good message. *)
Lemma running_flag_witness :
  IS_CLIENT_RUNNING (glob (step default_args (MainTick interrupt_tick) started)) = false /\
  recv_thread (step default_args (message_tick (alice_message false None))
                 (step default_args (MainTick interrupt_tick) started)) <> Running.
Proof.
  assert (Hf : IS_CLIENT_RUNNING
                 (glob (step default_args (MainTick interrupt_tick) started)) = false)
    by reflexivity.
  destruct (running_flag_cleared_only_by_interrupt default_args
              (step default_args (MainTick interrupt_tick) started)) as [_ H].
  split; [exact Hf |]. apply (H Hf).
Defined.

(** The truncated message kills the receive thread. *)
Lemma bad_message_witness :
  recv_thread started = Running /\
  exists e, recv_thread (step default_args (RecvTick (SockText (Some truncated_message)))
                           started) = Died e.
Proof.
  assert (Hr : recv_thread started = Running) by reflexivity.
  destruct (bad_message_kills_receive_thread default_args started Hr) as (_ & H & _).
  split; [exact Hr |].
  destruct (H truncated_message) as (e & He & _); [vm_compute; lia |].
  exists e. exact He.
Defined.

(** A truncated message followed by a complete one. *)
Lemma last_message_witness :
  fields_applied (encode_statistics (alice_message true None)) field_names = 8%nat /\
  final (recv (SockText (Some (encode_statistics (alice_message true None))))
           (final (recv (SockText (Some truncated_message)) (initial_globals 0)))) =
  final (recv (SockText (Some (encode_statistics (alice_message true None))))
           (initial_globals 0)).
Proof.
  assert (H8 : fields_applied (encode_statistics (alice_message true None)) field_names
               = 8%nat) by reflexivity.
  destruct (last_complete_message_wins (SockText (Some truncated_message))
              (encode_statistics (alice_message true None)) (initial_globals 0) H8)
    as [H _].
  split; [exact H8 | exact H].
Defined.

(** A ninth key in front of the truncated message. *)
Lemma unknown_key_witness :
  ~ In "junk" field_names /\
  recv (SockText (Some (PDict [("junk", PInt 1); ("id_counter", PNone)])))
    (initial_globals 0) =
  recv (SockText (Some (PDict [("id_counter", PNone)]))) (initial_globals 0).
Proof.
  assert (Hk : ~ In "junk" field_names).
  { simpl. intros [H | [H | [H | [H | [H | [H | [H | [H | []]]]]]]]];
      discriminate H. }
  split; [exact Hk |].
  apply (unknown_key_is_ignored "junk" (PInt 1) [("id_counter", PNone)]
           (initial_globals 0) Hk).
Defined.

(** 150 timeouts from the start. *)
Lemma timeouts_counted_witness :
  recv_thread started = Running /\
  current_timeout (exec default_args (repeat timeout_tick 150) started) = 100 /\
  recv_thread (exec default_args (repeat timeout_tick 150) started) = Exited.
Proof.
  assert (Hr : recv_thread started = Running) by reflexivity.
  destruct (timeouts_counted_out default_args 150 started Hr eq_refl eq_refl)
    as (H1 & H2 & _).
  split; [exact Hr |]. split; [rewrite H1 | rewrite H2]; reflexivity.
Defined.

(** A database of a good file, a faceless one and another good one;
    and the same with an unreadable file at the end. *)
Lemma database_load_witness :
  OpenFace.load_images
    [OpenFace.good_file 1; OpenFace.faceless_file 2; OpenFace.good_file 3] =
  OpenFace.Ok [OpenFace.TensorOf (Captured 1); OpenFace.TensorOf (Captured 3)] /\
  exists e, OpenFace.load_images
              [OpenFace.good_file 1; OpenFace.faceless_file 2; OpenFace.unreadable_file]
            = OpenFace.Err e.
Proof.
  destruct (database_load_skips_faceless_aborts_on_unreadable
              [OpenFace.good_file 1; OpenFace.faceless_file 2; OpenFace.good_file 3])
    as [H1 _].
  destruct (database_load_skips_faceless_aborts_on_unreadable
              [OpenFace.good_file 1; OpenFace.faceless_file 2; OpenFace.unreadable_file])
    as [_ H2].
  split.
  - rewrite H1; [reflexivity |].
    intros f [<- | [<- | [<- | []]]];
      [left; eexists; reflexivity | right; reflexivity | left; eexists; reflexivity].
  - apply (H2 OpenFace.unreadable_file); [simpl; tauto | reflexivity].
Defined.

(** Index 3 twice and index 7 once, on top of a tally of one 3. *)
Lemma tally_counts_witness :
  NoDup (map fst [(3, 1)]) /\
  OpenFace.count_of 3 (OpenFace.tally [3; 7; 3] [(3, 1)]) = 3 /\
  NoDup (map fst (OpenFace.tally [3; 7; 3] [(3, 1)])).
Proof.
  assert (Hn : NoDup (map fst [(3, 1)])) by (repeat constructor; simpl; tauto).
  destruct (tally_counts_occurrences [3; 7; 3] 3 [(3, 1)]) as [H1 H2].
  split; [exact Hn |]. split; [rewrite H1; reflexivity | exact (H2 Hn)].
Defined.

(** No count of the dict is above the score of the winner. *)
Lemma best_is_a_maximum_witness :
  In (7, 2) [(3, 1); (7, 2); (9, 2)] /\ 2 <= snd (OpenFace.best [(3, 1); (7, 2); (9, 2)]).
Proof.
  assert (Hi : In (7, 2) [(3, 1); (7, 2); (9, 2)]) by (simpl; tauto).
  destruct (best_is_a_maximum [(3, 1); (7, 2); (9, 2)]) as [H _].
  split; [exact Hi | exact (H 7 2 Hi)].
Defined.

(** Three frames' worth of indices. *)
Lemma winner_witness :
  [3; 7; 3] <> [] /\
  snd (OpenFace.best (OpenFace.tally [3; 7; 3] [])) = OpenFace.occurrences 3 [3; 7; 3].
Proof.
  assert (Hne : [3; 7; 3] <> []) by discriminate.
  destruct (winner_is_most_frequent [3; 7; 3] Hne) as [H _].
  split; [exact Hne |]. rewrite H. reflexivity.
Defined.

(** The top-k result is returned under [--verbose]. *)
Lemma find_k_nearest_witness :
  fst (OpenFace.find_k_nearest true (OpenFace.Ok ([3; 7], [1%nat; 2%nat]))) =
  OpenFace.Ok (Some ([3; 7], [1%nat; 2%nat])).
Proof.
  destruct (find_k_nearest_returns_only_when_verbose true
              (OpenFace.Ok ([3; 7], [1%nat; 2%nat]))) as [H _].
  apply H. repeat split; discriminate.
Defined.

(** Two good frames without [--verbose]: the tally stays empty. *)
Lemma webcam_quiet_witness :
  OpenFace.webcam_run false [OpenFace.good_cam [3; 7] 1; OpenFace.good_cam [3] 2] [] =
  OpenFace.Ok [] /\
  ([] = ([] : OpenFace.counts) \/ [] = ([] : OpenFace.counts)).
Proof.
  assert (Hr : OpenFace.webcam_run false
                 [OpenFace.good_cam [3; 7] 1; OpenFace.good_cam [3] 2] []
               = OpenFace.Ok []) by reflexivity.
  destruct (webcam_tally_needs_verbose
              [OpenFace.good_cam [3; 7] 1; OpenFace.good_cam [3] 2] [] [] Hr) as [H _].
  split; [exact Hr | exact H].
Defined.

(** A good frame under [--verbose]: both indices are tallied. *)
Lemma webcam_verbose_witness :
  OpenFace.tally_frame true (OpenFace.good_cam [3; 7] 1) (Captured 0) [] =
  OpenFace.Ok [(3, 1); (7, 1)] /\
  exists idxs ds,
    OpenFace.topk (OpenFace.good_cam [3; 7] 1) = OpenFace.Ok (idxs, ds) /\
    idxs <> [] /\
    forall k, OpenFace.count_of k [(3, 1); (7, 1)] =
              OpenFace.count_of k [] + OpenFace.occurrences k idxs.
Proof.
  assert (Ht : OpenFace.tally_frame true (OpenFace.good_cam [3; 7] 1) (Captured 0) []
               = OpenFace.Ok [(3, 1); (7, 1)]) by reflexivity.
  split; [exact Ht |].
  apply (webcam_tally_under_verbose (OpenFace.good_cam [3; 7] 1) (Captured 0) []
           [(3, 1); (7, 1)] Ht).
Defined.

(** * The receive thread inside an iteration *)

Lemma recvs_app (a b : list recv_input) (g : globals) :
  recvs (a ++ b) g = recvs b (recvs a g).
Proof. unfold recvs. apply fold_left_app. Qed.

Lemma is_none_spec (v : pyval) : is_none v = true <-> v = PNone.
Proof. destruct v; simpl; split; intro H; try discriminate; reflexivity. Qed.

(** An iteration whose test finds an identity assigns nothing. *)
Lemma racing_authorize_set
    (args : Args) (env : tick_env) (cd : list pyval) (m : interleaving) (g : globals) :
  AUTHORIZED_ID (recvs (before_test m) g) <> PNone ->
  racing_authorize args env cd m g =
  (Ret tt,
   recvs (before_dispatch m) (recvs (before_assign m) (recvs (before_test m) g)),
   []).
Proof.
  intro Hset.
  unfold racing_authorize, meanwhile, authorize_decide, authorize_commit,
    bind, get, lift, ret, assign.
  destruct (is_none (AUTHORIZED_ID (recvs (before_test m) g))) eqn:E.
  - apply is_none_spec in E. contradiction.
  - reflexivity.
Qed.

(** An iteration whose test finds none assigns what is offered, over
    whatever the receive thread assigned since the test. *)
Lemma racing_authorize_null
    (args : Args) (env : tick_env) (cd : list pyval) (m : interleaving) (g : globals) :
  AUTHORIZED_ID (recvs (before_test m) g) = PNone ->
  (virtual args = true -> key_ok env = true) ->
  racing_authorize args env cd m g =
  (Ret tt,
   recvs (before_dispatch m)
     (match offered args env cd with
      | Some v => set_AUTHORIZED_ID v (recvs (before_assign m) (recvs (before_test m) g))
      | None => recvs (before_assign m) (recvs (before_test m) g)
      end),
   []).
Proof.
  intros Hnull Hkey.
  unfold racing_authorize, meanwhile, authorize_decide, authorize_commit, offered,
    key_ok, bind, get, lift, ret, assign in *.
  rewrite Hnull. simpl.
  destruct (virtual args).
  - destruct (waitKey_auth env) as [key | e]; [| discriminate (Hkey eq_refl)].
    simpl. destruct (negb (key =? -1)); reflexivity.
  - simpl. destruct (Z.of_nat (List.length cd) =? 4); reflexivity.
Qed.

Lemma racing_front_no_race (args : Args) (env : tick_env) (g : globals) :
  racing_front args env no_race g = capture_and_dispatch args env g.
Proof.
  unfold racing_front, capture_and_dispatch, racing_authorize, authorize,
    authorize_decide, authorize_commit, meanwhile, no_race, recvs,
    bind, lift, emit, get, ret, raise, when, assign.
  simpl.
  destruct (cap_read env) as [[[|] [i |]] | e]; simpl; try reflexivity.
  destruct (virtual args); simpl.
  - repeat break_match; reflexivity.
  - destruct (readCardID env) as [cd | e]; simpl; [| reflexivity].
    repeat break_match; reflexivity.
Qed.

Lemma bind_ext {A B : Type} (m m' : M A) (f f' : A -> M B) (g : globals) :
  m g = m' g -> (forall a g1, f a g1 = f' a g1) -> bind m f g = bind m' f' g.
Proof.
  intros Hm Hf. unfold bind. rewrite Hm.
  destruct (m' g) as [[[a | e] g1] ev1]; [| reflexivity].
  rewrite Hf. reflexivity.
Qed.

Lemma meanwhile_nil {B : Type} (k : M B) (g : globals) :
  bind (meanwhile []) (fun _ => k) g = k g.
Proof.
  unfold bind, meanwhile, recvs. simpl.
  destruct (k g) as [[r g2] ev2]. reflexivity.
Qed.

Lemma racing_body_no_race (args : Args) (env : tick_env) (g : globals) :
  racing_body args env no_race g = tick_body args env g.
Proof.
  unfold racing_body, tick_body.
  apply bind_ext; [apply racing_front_no_race |].
  intros img g1. simpl before_gate. rewrite meanwhile_nil.
  apply bind_ext; [reflexivity |].
  intros u g2. simpl before_idle. apply meanwhile_nil.
Qed.

Lemma racing_front_jobs
    (args : Args) (env : tick_env) (m : interleaving) (g : globals) :
  dispatched (emitted (racing_front args env m g)) =
    match result (racing_front args env m g) with
    | Ret img => [(img, AUTHORIZED_ID (final (racing_front args env m g)))]
    | Raise _ => []
    end /\
  (forall img, result (racing_front args env m g) = Ret img ->
               exists i, cap_read env = Ret (true, Some i) /\ img = Flipped i).
Proof.
  unfold racing_front, racing_authorize, authorize_decide, authorize_commit, meanwhile,
    bind, lift, emit, get, ret, raise, when, assign, emitted, result, final, dispatched.
  simpl.
  destruct (cap_read env) as [[[|] [i |]] | e]; simpl;
    try (split; [reflexivity | intros img H; discriminate H]).
  destruct (virtual args); simpl.
  - repeat break_match;
      (split; [reflexivity
              | intros img H; first [discriminate H
                                    | injection H as <-; eexists; split; reflexivity]]).
  - destruct (readCardID env) as [cd | e]; simpl;
      [| split; [reflexivity | intros img H; discriminate H]].
    repeat break_match;
      (split; [reflexivity
              | intros img H; first [discriminate H
                                    | injection H as <-; eexists; split; reflexivity]]).
Qed.

Lemma meanwhile_emits (Q : event -> Prop) (inps : list recv_input) :
  emits_only Q (meanwhile inps).
Proof. intro g; constructor. Qed.

Lemma racing_rest_quiet (Q : event -> Prop)
    (args : Args) (env : tick_env) (m : interleaving) (img : image) :
  (forall n i t, Q (EvPrint (PrOpen n i t))) -> (forall id, Q (EvActuate id)) ->
  (forall f, Q (EvShow f)) ->
  emits_only Q (meanwhile (before_gate m) ;; open_gate args env ;;
                meanwhile (before_idle m) ;; idle_or_show args env img).
Proof.
  intros HP HA HS.
  apply emits_bind; [apply meanwhile_emits | intros _].
  apply emits_bind; [apply open_gate_emits; assumption | intros _].
  apply emits_bind; [apply meanwhile_emits | intros _].
  apply idle_or_show_emits; assumption.
Qed.

Lemma racing_body_jobs
    (args : Args) (env : tick_env) (m : interleaving) (g : globals) :
  dispatched (emitted (racing_body args env m g)) =
  dispatched (emitted (racing_front args env m g)).
Proof.
  unfold racing_body. rewrite bind_emitted, dispatched_app.
  destruct (result (racing_front args env m g)) as [img | e];
    [| apply app_nil_r].
  rewrite <- (app_nil_r (dispatched (emitted (racing_front args env m g)))) at 2.
  f_equal. apply dispatched_none.
  apply (racing_rest_quiet (fun e => is_dispatch e = false)); reflexivity.
Qed.

Lemma racing_authorize_no_race
    (args : Args) (env : tick_env) (cd : list pyval) (g : globals) :
  racing_authorize args env cd no_race g = authorize args env cd g.
Proof.
  unfold racing_authorize, authorize, authorize_decide, authorize_commit, meanwhile,
    no_race, recvs, bind, get, lift, ret, when, assign.
  simpl. repeat break_match; reflexivity.
Qed.

(** C5, as amended: the capture loop assigns the authorized identity
    only in an iteration whose test [AUTHORIZED_ID is None] found it
    null; in an iteration whose test finds an identity, the globals at
    the dispatch are what the receive thread alone has made of them.
    The test does not protect the identity: when it finds null and the
    key press or the card offers an identity, the assignment overwrites
    whatever the receive thread has assigned since the test.  The receive
    path changes the identity at any time: every decoded message that
    reaches the assignment overwrites it with the message's
    [AUTHORIZED_ID] field, be it null or another identity, while a
    receive that fails before decoding leaves the globals alone. *)
Theorem authorized_id_assigned_after_null_test_overwritten_by_server
    (args : Args) (env : tick_env) (cd : list pyval) (m : interleaving)
    (g : globals) (s : system) :
  recv_thread s = Running ->
  (AUTHORIZED_ID (recvs (before_test m) g) <> PNone ->
   racing_authorize args env cd m g =
   (Ret tt,
    recvs (before_dispatch m) (recvs (before_assign m) (recvs (before_test m) g)),
    [])) /\
  (forall v,
      AUTHORIZED_ID (recvs (before_test m) g) = PNone ->
      offered args env cd = Some v ->
      final (racing_authorize args env cd m g) =
        recvs (before_dispatch m)
          (set_AUTHORIZED_ID v (recvs (before_assign m) (recvs (before_test m) g))) /\
      (before_dispatch m = [] ->
       AUTHORIZED_ID (final (racing_authorize args env cd m g)) = v)) /\
  (forall statistics,
      (6 <= fields_applied statistics field_names)%nat ->
      AUTHORIZED_ID (glob (step args (RecvTick (SockText (Some statistics))) s)) =
      field_value statistics "AUTHORIZED_ID") /\
  (forall e, glob (step args (RecvTick (SockRaise e)) s) = glob s) /\
  glob (step args (RecvTick (SockText None)) s) = glob s /\
  racing_authorize args env cd no_race g = authorize args env cd g.
Proof.
  intro Hrun. split; [| split; [| split; [| split; [| split]]]].
  - apply racing_authorize_set.
  - intros v Hnull Hoff.
    assert (Hkey : virtual args = true -> key_ok env = true).
    { intro Hv. unfold offered, key_ok in *. rewrite Hv in Hoff.
      destruct (waitKey_auth env); [reflexivity | discriminate Hoff]. }
    rewrite (racing_authorize_null args env cd m g Hnull Hkey), Hoff.
    unfold final. simpl. split; [reflexivity |].
    intros ->. simpl.
    destruct (recvs (before_assign m) (recvs (before_test m) g)); reflexivity.
  - intros statistics H6. cbn [step]. rewrite Hrun. cbn [glob].
    rewrite recv_iter_glob. apply recv_overwrites_authorized_id, H6.
  - intro e. cbn [step]. rewrite Hrun. cbn [glob].
    rewrite recv_iter_glob. apply recv_socket_raises.
  - cbn [step]. rewrite Hrun. cbn [glob].
    rewrite recv_iter_glob. apply recv_not_json.
  - apply racing_authorize_no_race.
Qed.

(** While the capture loop waits for a key the receive thread
    authorizes 42; the key [a] then replaces it. *)
Lemma authorized_id_race_witness :
  recv_thread started = Running /\
  AUTHORIZED_ID (recvs (before_test race_during_wait) (initial_globals 0)) = PNone /\
  AUTHORIZED_ID
    (recvs (before_assign race_during_wait)
       (recvs (before_test race_during_wait) (initial_globals 0))) = PStr "42" /\
  AUTHORIZED_ID
    (final (racing_authorize virtual_args (key_tick 1 1000 97) [] race_during_wait
              (initial_globals 0))) = PStr "a".
Proof.
  assert (Hr : recv_thread started = Running) by reflexivity.
  assert (Hn : AUTHORIZED_ID (recvs (before_test race_during_wait) (initial_globals 0))
               = PNone) by reflexivity.
  destruct (authorized_id_assigned_after_null_test_overwritten_by_server
              virtual_args (key_tick 1 1000 97) [] race_during_wait
              (initial_globals 0) started Hr) as (_ & H2 & _).
  destruct (H2 (PStr "a") Hn eq_refl) as [_ H].
  split; [exact Hr |]. split; [exact Hn |]. split; [reflexivity |].
  apply H. reflexivity.
Defined.

(** X6: an iteration of the capture loop starts at most one send
    thread, and none when the camera fails, whatever the receive thread
    does in between.  The thread gets the flipped frame just read and
    the value that [AUTHORIZED_ID] has when the arguments of the thread
    are evaluated, after the authorization of the same iteration. *)
Theorem one_dispatch_per_iteration
    (args : Args) (env : tick_env) (m : interleaving) (g : globals) :
  (capture_failed env = true ->
   dispatched (emitted (racing_body args env m g)) = []) /\
  (dispatched (emitted (racing_body args env m g)) = [] \/
   exists i, cap_read env = Ret (true, Some i) /\
             dispatched (emitted (racing_body args env m g)) =
             [(Flipped i, AUTHORIZED_ID (final (racing_front args env m g)))]) /\
  dispatched (snd (main_iter args env g)) =
  dispatched (emitted (racing_body args env no_race (set_it (it g + 1) g))).
Proof.
  rewrite racing_body_jobs.
  destruct (racing_front_jobs args env m g) as [Hj Hi]. rewrite Hj.
  split; [| split].
  - destruct (result (racing_front args env m g)) as [img | e]; [| reflexivity].
    destruct (Hi img eq_refl) as (i & Hc & ->).
    unfold capture_failed. rewrite Hc. discriminate.
  - destruct (result (racing_front args env m g)) as [img | e];
      [| left; reflexivity].
    destruct (Hi img eq_refl) as (i & Hc & ->).
    right. exists i. split; [exact Hc | reflexivity].
  - destruct (main_iter_events args env g) as [_ Hd].
    rewrite Hd, racing_body_no_race. reflexivity.
Qed.

(** A failed capture dispatches nothing, whatever is received
    meanwhile. *)
Lemma one_dispatch_witness :
  capture_failed interrupt_tick = true /\
  dispatched (emitted (racing_body default_args interrupt_tick race_during_wait
                         (initial_globals 0))) = [].
Proof.
  assert (Hc : capture_failed interrupt_tick = true) by reflexivity.
  destruct (one_dispatch_per_iteration default_args interrupt_tick race_during_wait
              (initial_globals 0)) as [H _].
  split; [exact Hc | exact (H Hc)].
Defined.

Lemma capture_and_dispatch_succeeds (args : Args) (env : tick_env) (g : globals) :
  capture_failed env = false ->
  (virtual args = false -> card_ok env = true) ->
  (virtual args = true -> key_ok env = true) ->
  exists i, cap_read env = Ret (true, Some i) /\
            result (capture_and_dispatch args env g) = Ret (Flipped i) /\
            exists rest, emitted (capture_and_dispatch args env g) = EvRead true :: rest.
Proof.
  unfold capture_failed, card_ok, key_ok, capture_and_dispatch, authorize,
    bind, lift, emit, get, ret, raise, when, assign, result, emitted.
  intros Hc Hd Hk.
  destruct (cap_read env) as [[[|] [i |]] | e]; try discriminate Hc.
  exists i. split; [reflexivity |]. simpl.
  destruct (virtual args); simpl.
  - specialize (Hk eq_refl).
    destruct (waitKey_auth env) as [key | e]; [| discriminate Hk].
    repeat break_match; split; try reflexivity; eexists; reflexivity.
  - specialize (Hd eq_refl).
    destruct (readCardID env) as [cd | e]; [| discriminate Hd]. simpl.
    repeat break_match; split; try reflexivity; eexists; reflexivity.
Qed.

Lemma main_iter_trace (args : Args) (env : tick_env) (g : globals) :
  exists extra,
    snd (main_iter args env g) =
    emitted (tick_body args env (set_it (it g + 1) g)) ++ extra.
Proof.
  unfold main_iter, emitted.
  destruct (tick_body args env (set_it (it g + 1) g)) as [[[c | e] g1] evs]; simpl.
  - exists []. rewrite app_nil_r. destruct c; reflexivity.
  - destruct e; simpl; eexists; reflexivity.
Qed.

(** An iteration in which camera, card reader and key read answer reads
    a frame and dispatches it. *)
Lemma main_iter_dispatches (args : Args) (env : tick_env) (g : globals) :
  capture_failed env = false ->
  (virtual args = false -> card_ok env = true) ->
  (virtual args = true -> key_ok env = true) ->
  exists i claim,
    cap_read env = Ret (true, Some i) /\
    In (EvRead true) (snd (main_iter args env g)) /\
    dispatched (snd (main_iter args env g)) = [(Flipped i, claim)].
Proof.
  intros Hc Hd Hk.
  destruct (capture_and_dispatch_succeeds args env (set_it (it g + 1) g) Hc Hd Hk)
    as (i & Hi & Hr & rest & He).
  exists i, (AUTHORIZED_ID (snd (fst (main_iter args env g)))).
  split; [exact Hi |]. split.
  - destruct (main_iter_trace args env g) as [extra Hx]. rewrite Hx.
    unfold tick_body. rewrite bind_emitted, He. simpl. left; reflexivity.
  - rewrite main_iter_jobs, Hr. reflexivity.
Qed.

(** C1, as amended: in every run, once the receive loop has counted
    [max_timeout] timeouts it has exited, and from then on a receive step
    changes nothing: no further message is received.  The capture loop
    is not stopped by this: no step of the receive thread changes the
    main thread, the running flag or the pending sends, and every
    iteration of the capture loop in which the camera delivers a frame
    and the card read (in virtual mode: the key read) does not raise
    still reads a frame and dispatches it. *)
Theorem receive_loop_exhaustion_leaves_capture_running
    (args : Args) (ls : list label) (s0 : system) :
  (recv_thread s0 = Running -> current_timeout s0 < max_timeout) ->
  let s := exec args ls s0 in
  (max_timeout <= current_timeout s -> recv_thread s <> Running) /\
  (recv_thread s <> Running -> forall inp, step args (RecvTick inp) s = s) /\
  (forall inp,
      let s' := step args (RecvTick inp) s in
      main_thread s' = main_thread s /\
      IS_CLIENT_RUNNING (glob s') = IS_CLIENT_RUNNING (glob s) /\
      in_flight s' = in_flight s /\
      frame_events (trace s') = frame_events (trace s)) /\
  (forall env,
      main_thread s = Running ->
      capture_failed env = false ->
      (virtual args = false -> card_ok env = true) ->
      (virtual args = true -> key_ok env = true) ->
      exists i claim,
        cap_read env = Ret (true, Some i) /\
        In (EvRead true) (snd (main_iter args env (glob s))) /\
        dispatched (snd (main_iter args env (glob s))) = [(Flipped i, claim)] /\
        trace (step args (MainTick env) s) =
          trace s ++ snd (main_iter args env (glob s)) /\
        in_flight (step args (MainTick env) s) =
          in_flight s ++ [(Flipped i, claim)]).
Proof.
  intros H0 s.
  pose proof (exec_counter_in_bound args ls s0 H0) as Hb. fold s in Hb.
  split; [| split; [| split]].
  - intros Hmax Hrun. specialize (Hb Hrun). lia.
  - intros Hrun inp. simpl. destruct (recv_thread s); try reflexivity.
    contradiction Hrun; reflexivity.
  - intro inp. apply recv_step_frame.
  - intros env Hrun Hc Hd Hk.
    destruct (main_iter_dispatches args env (glob s) Hc Hd Hk)
      as (i & claim & Hi & Hr & Hj).
    exists i, claim.
    split; [exact Hi |]. split; [exact Hr |]. split; [exact Hj |].
    cbn [step]. rewrite Hrun. cbn [trace in_flight]. rewrite Hj.
    split; reflexivity.
Qed.

(** After 100 timeouts from the start the receive loop has exited, and
    the next iteration of the capture loop still dispatches a frame. *)
Lemma receive_loop_exhaustion_witness :
  (recv_thread started = Running -> current_timeout started < max_timeout) /\
  recv_thread (exec default_args (repeat timeout_tick 100) started) <> Running /\
  exists i claim,
    in_flight (step default_args (MainTick (quiet_tick 1 1000))
                 (exec default_args (repeat timeout_tick 100) started)) =
    in_flight (exec default_args (repeat timeout_tick 100) started)
    ++ [(Flipped i, claim)].
Proof.
  assert (H0 : recv_thread started = Running -> current_timeout started < max_timeout)
    by (intros _; reflexivity).
  destruct (receive_loop_exhaustion_leaves_capture_running
              default_args (repeat timeout_tick 100) started H0)
    as (H1 & _ & _ & H4).
  split; [exact H0 |]. split.
  - apply H1. vm_compute. discriminate.
  - destruct (H4 (quiet_tick 1 1000)) as (i & claim & _ & _ & _ & _ & Hf);
      try reflexivity.
    exists i, claim. exact Hf.
Defined.
